(** * StrategyEngine (run.py): a shallow embedding and its properties

    The engine of [run.py] reacts to tick, contract and position events that
    an event bus delivers.  It keeps per-instrument maps, subscribes to market
    data through a gateway, and trades a three-tick momentum rule.

    The embedding keeps the shape of the Python class: one record for the
    instance fields, one function per method, a small monad for the state,
    the calls made on the collaborators (gateway, event engine, stdout) and
    the exceptions Python raises ([KeyError] on [d[k]], [IndexError] on
    [l[-i]]). *)

From stdpp Require Import gmap strings list fin_maps pretty.
From Stdlib Require Import ZArith Lia.

Open Scope Z_scope.

(** ** Values of the host language

    Prices, volumes and contract sizes are Python numbers (floats in the
    vnpy objects) and time stamps are [datetime] objects.  The engine only
    compares numbers with [<] and [>], adds and subtracts the literal [10],
    multiplies, and formats them in f-strings.  The embedding is parametric
    in these types; the one law it relies on, asymmetry of [<], holds for
    Python's integers and for IEEE floats (where a comparison with NaN is
    false). *)
Class Values := {
  number : Type;
  datetime : Type;
  num_lt : number → number → bool;
  num_add : number → number → number;
  num_sub : number → number → number;
  num_mul : number → number → number;
  num_of_Z : Z → number;
  str_number : number → string;
  str_datetime : datetime → string;
  num_lt_asym : ∀ a b, num_lt a b = true → num_lt b a = false
}.

(** Python's [a > b] on numbers is [b < a]. *)
Definition num_gt `{Values} (a b : number) : bool := num_lt b a.

(** Integers as an instance: the values used in the concrete runs below. *)
Definition str_Z (z : Z) : string := pretty z.

#[export] Instance Z_values : Values := {|
  number := Z;
  datetime := Z;
  num_lt := Z.ltb;
  num_add := Z.add;
  num_sub := Z.sub;
  num_mul := Z.mul;
  num_of_Z := fun z => z;
  str_number := str_Z;
  str_datetime := str_Z;
  num_lt_asym := fun a b Hab =>
    proj2 (Z.ltb_ge b a) (Z.lt_le_incl a b (proj1 (Z.ltb_lt a b) Hab))
|}.

(** ** Enumerations of [vnpy.trader.constant] used by the engine *)
Inductive Direction := LONG | SHORT | NET.
Inductive OrderType := LIMIT | MARKET | STOP | FAK | FOK.
Inductive Offset := NONE | OPEN | CLOSE | CLOSETODAY | CLOSEYESTERDAY.

(** [str] of an enumeration member, as an f-string formats it. *)
Definition str_Direction (d : Direction) : string :=
  match d with
  | LONG => "Direction.LONG"%string
  | SHORT => "Direction.SHORT"%string
  | NET => "Direction.NET"%string
  end.

(** How a method body ends: it returns, or a Python exception escapes. *)
Inductive Exn :=
  | KeyError (key : string)
  | IndexError.

Inductive Result (A : Type) :=
  | Return (a : A)
  | Raise (e : Exn).
Arguments Return {A} a.
Arguments Raise {A} e.

Section Engine.
Context `{V : Values}.

(** ** Data objects ([vnpy.trader.object])

    Only the fields the engine reads or writes.  [vt_symbol] is the
    instrument key, the join key of every per-instrument map. *)
Record TickData := {
  tick_vt_symbol : string;
  tick_last_price : number;
  tick_datetime : datetime
}.

Record ContractData := {
  contract_vt_symbol : string;
  contract_symbol : string;
  contract_exchange : string;
  contract_size : number
}.

Record PositionData := {
  position_vt_positionid : string;
  position_vt_symbol : string;
  position_direction : Direction;
  position_volume : number
}.

Record LogData := {
  log_msg : string;
  log_gateway_name : string
}.

Record SubscribeRequest := {
  sub_symbol : string;
  sub_exchange : string
}.

Record OrderRequest := {
  order_symbol : string;
  order_exchange : string;
  order_direction : Direction;
  order_type : OrderType;
  order_price : number;
  order_volume : number;
  order_offset : Offset
}.

(** The dictionary that [run_trading] puts on the bus under
    [EVENT_STRATEGY]. *)
Record StrategyData := {
  sd_vt_symbol : string;
  sd_datetime : datetime;
  sd_last_price : number;
  sd_trading_target : Z
}.

(** An [Event] is a type tag with its payload. *)
Inductive Event :=
  | EVENT_TICK (tick : TickData)
  | EVENT_CONTRACT (contract : ContractData)
  | EVENT_POSITION (position : PositionData)
  | EVENT_TIMER
  | EVENT_LOG (log : LogData)
  | EVENT_STRATEGY (data : StrategyData).

(** ** Calls on the collaborators, in the order they are made *)
Inductive Effect :=
  | gateway_subscribe (req : SubscribeRequest)
  | gateway_send_order (req : OrderRequest)
  | event_engine_put (event : Event)
  | print (line : string).

(** ** The instance fields of [StrategyEngine]

    [positions] is iterated by [calculate_value], so it keeps the insertion
    order of a Python [dict]; the other dictionaries are only looked up. *)
Record StrategyEngine := {
  ticks : gmap string TickData;
  contracts : gmap string ContractData;
  positions : list (string * PositionData);
  subscribed : gset string;
  tick_history : gmap string (list TickData);
  trading_symbols : gset string;
  trading_targets : gmap string Z
}.

(** [d[k] = v] on an insertion-ordered dictionary: an existing key keeps its
    place, a new key goes last. *)
Fixpoint dict_setitem {A} (k : string) (v : A) (d : list (string * A))
  : list (string * A) :=
  match d with
  | [] => [(k, v)]
  | (k', v') :: rest =>
      if decide (k' = k) then (k, v) :: rest
      else (k', v') :: dict_setitem k v rest
  end.

Definition dict_values {A} (d : list (string * A)) : list A := d.*2.

(** ** The monad of a method body: state, calls made, and how it ended *)
Definition M (A : Type) : Type :=
  StrategyEngine → Result A * StrategyEngine * list Effect.

Definition ret {A} (a : A) : M A := fun s => (Return a, s, []).

Definition bind {A B} (m : M A) (f : A → M B) : M B :=
  fun s =>
    match m s with
    | (Return a, s1, out1) =>
        match f a s1 with
        | (r, s2, out2) => (r, s2, out1 ++ out2)
        end
    | (Raise e, s1, out1) => (Raise e, s1, out1)
    end.

Definition raise {A} (e : Exn) : M A := fun s => (Raise e, s, []).
Definition get_self : M StrategyEngine := fun s => (Return s, s, []).
Definition put_self (s' : StrategyEngine) : M unit := fun _ => (Return tt, s', []).
Definition emit (e : Effect) : M unit := fun s => (Return tt, s, [e]).

Notation "'do' x <- m ; k" := (bind m (fun x => k))
  (at level 10, x name, m at level 100, k at level 200).
Notation "m ;;; k" := (bind m (fun _ => k))
  (at level 100, k at level 200, right associativity).

(** ** Primitive accesses to the fields *)

(** [self.tick_history[k]] on a [defaultdict(list)]: a missing key is first
    created with the empty list. *)
Definition tick_history_getitem (k : string) : M (list TickData) :=
  do s <- get_self;
  match tick_history s !! k with
  | Some history => ret history
  | None =>
      put_self {| ticks := ticks s; contracts := contracts s;
                  positions := positions s; subscribed := subscribed s;
                  tick_history := <[k := []]> (tick_history s);
                  trading_symbols := trading_symbols s;
                  trading_targets := trading_targets s |};;;
      ret []
  end.

(** [history.append(tick)] for the list stored under [k]: the list object is
    shared with the dictionary, so the stored list grows. *)
Definition tick_history_append (k : string) (tick : TickData) : M unit :=
  do s <- get_self;
  put_self {| ticks := ticks s; contracts := contracts s;
              positions := positions s; subscribed := subscribed s;
              tick_history :=
                <[k := default [] (tick_history s !! k) ++ [tick]]> (tick_history s);
              trading_symbols := trading_symbols s;
              trading_targets := trading_targets s |}.

(** [self.trading_targets[k]] on a [defaultdict(int)]: a missing key is first
    created with [0]. *)
Definition trading_targets_getitem (k : string) : M Z :=
  do s <- get_self;
  match trading_targets s !! k with
  | Some target => ret target
  | None =>
      put_self {| ticks := ticks s; contracts := contracts s;
                  positions := positions s; subscribed := subscribed s;
                  tick_history := tick_history s;
                  trading_symbols := trading_symbols s;
                  trading_targets := <[k := 0]> (trading_targets s) |};;;
      ret 0
  end.

(** [self.trading_targets[k] = v]. *)
Definition trading_targets_setitem (k : string) (v : Z) : M unit :=
  do s <- get_self;
  put_self {| ticks := ticks s; contracts := contracts s;
              positions := positions s; subscribed := subscribed s;
              tick_history := tick_history s;
              trading_symbols := trading_symbols s;
              trading_targets := <[k := v]> (trading_targets s) |}.

(** [self.contracts[k]]: a plain [dict], a missing key raises. *)
Definition contracts_getitem (k : string) : M ContractData :=
  do s <- get_self;
  match contracts s !! k with
  | Some contract => ret contract
  | None => raise (KeyError k)
  end.

(** [l[-i]] for [i >= 1]. *)
Definition list_getitem_neg {A} (l : list A) (i : nat) : M A :=
  if decide (1 ≤ i ≤ length l)%nat then
    match l !! (length l - i)%nat with
    | Some x => ret x
    | None => raise IndexError
    end
  else raise IndexError.

(** ** Methods of [StrategyEngine] *)

(** [__init__] followed by [load_setting]: every map is empty and the
    trading set holds the codes read from [setting.json]. *)
Definition init (vt_symbols : list string) : StrategyEngine :=
  {| ticks := ∅; contracts := ∅; positions := []; subscribed := ∅;
     tick_history := ∅;
     trading_symbols := list_to_set vt_symbols;
     trading_targets := ∅ |}.

Definition write_log (msg : string) : M unit :=
  emit (event_engine_put
          (EVENT_LOG {| log_msg := msg; log_gateway_name := "STRATEGY"%string |})).

Definition run_trading (vt_symbol : string) : M unit :=
  do history <- tick_history_getitem vt_symbol;
  if decide (length history < 3)%nat then ret tt
  else
    do tick1 <- list_getitem_neg history 1;
    do tick2 <- list_getitem_neg history 2;
    do tick3 <- list_getitem_neg history 3;
    do contract <- contracts_getitem vt_symbol;
    (if num_gt (tick_last_price tick1) (tick_last_price tick2)
        && num_gt (tick_last_price tick2) (tick_last_price tick3)
     then
       do target <- trading_targets_getitem vt_symbol;
       if target =? 0 then
         emit (gateway_send_order
                 {| order_symbol := contract_symbol contract;
                    order_exchange := contract_exchange contract;
                    order_direction := LONG;
                    order_type := LIMIT;
                    order_price := num_add (tick_last_price tick1) (num_of_Z 10);
                    order_volume := num_of_Z 1;
                    order_offset := OPEN |});;;
         trading_targets_setitem vt_symbol 1;;;
         write_log (vt_symbol +:+ "买入开仓1手 "%string +:+ str_datetime (tick_datetime tick1))
       else ret tt
     else ret tt);;;
    (if num_lt (tick_last_price tick1) (tick_last_price tick2)
        && num_lt (tick_last_price tick2) (tick_last_price tick3)
     then
       do target <- trading_targets_getitem vt_symbol;
       if 0 <? target then
         emit (gateway_send_order
                 {| order_symbol := contract_symbol contract;
                    order_exchange := contract_exchange contract;
                    order_direction := SHORT;
                    order_type := LIMIT;
                    order_price := num_sub (tick_last_price tick1) (num_of_Z 10);
                    order_volume := num_of_Z 1;
                    order_offset := CLOSE |});;;
         trading_targets_setitem vt_symbol 0;;;
         write_log (vt_symbol +:+ "卖出平仓1手 "%string +:+ str_datetime (tick_datetime tick1))
       else ret tt
     else ret tt);;;
    do target <- trading_targets_getitem vt_symbol;
    emit (event_engine_put
            (EVENT_STRATEGY
               {| sd_vt_symbol := vt_symbol;
                  sd_datetime := tick_datetime tick1;
                  sd_last_price := tick_last_price tick1;
                  sd_trading_target := target |})).

Definition process_tick_event (tick : TickData) : M unit :=
  do s <- get_self;
  put_self {| ticks := <[tick_vt_symbol tick := tick]> (ticks s);
              contracts := contracts s;
              positions := positions s; subscribed := subscribed s;
              tick_history := tick_history s;
              trading_symbols := trading_symbols s;
              trading_targets := trading_targets s |};;;
  if decide (tick_vt_symbol tick ∈ trading_symbols s) then
    do history <- tick_history_getitem (tick_vt_symbol tick);
    tick_history_append (tick_vt_symbol tick) tick;;;
    run_trading (tick_vt_symbol tick)
  else ret tt.

Definition process_contract_event (contract : ContractData) : M unit :=
  do s <- get_self;
  put_self {| ticks := ticks s;
              contracts := <[contract_vt_symbol contract := contract]> (contracts s);
              positions := positions s; subscribed := subscribed s;
              tick_history := tick_history s;
              trading_symbols := trading_symbols s;
              trading_targets := trading_targets s |};;;
  if decide (contract_vt_symbol contract ∈ trading_symbols s) then
    emit (gateway_subscribe
            {| sub_symbol := contract_symbol contract;
               sub_exchange := contract_exchange contract |})
  else ret tt.

Definition process_position_event (position : PositionData) : M unit :=
  do s <- get_self;
  put_self {| ticks := ticks s; contracts := contracts s;
              positions :=
                dict_setitem (position_vt_positionid position) position (positions s);
              subscribed := subscribed s;
              tick_history := tick_history s;
              trading_symbols := trading_symbols s;
              trading_targets := trading_targets s |};;;
  if decide (position_vt_symbol position ∈ subscribed s) then ret tt
  else
    match contracts s !! position_vt_symbol position with
    | None => ret tt
    | Some contract =>
        emit (gateway_subscribe
                {| sub_symbol := contract_symbol contract;
                   sub_exchange := contract_exchange contract |});;;
        do s1 <- get_self;
        put_self {| ticks := ticks s1; contracts := contracts s1;
                    positions := positions s1;
                    subscribed := {[position_vt_symbol position]} ∪ subscribed s1;
                    tick_history := tick_history s1;
                    trading_symbols := trading_symbols s1;
                    trading_targets := trading_targets s1 |}
    end.

Definition process_log_event (log : LogData) : M unit :=
  emit (print (log_msg log)).

(** The body of the loop of [calculate_value], and the loop over
    [self.positions.values()]. *)
Definition calculate_value_body (position : PositionData) : M unit :=
  do s <- get_self;
  match ticks s !! position_vt_symbol position,
        contracts s !! position_vt_symbol position with
  | Some tick, Some contract =>
      let value :=
        num_mul (num_mul (position_volume position) (tick_last_price tick))
                (contract_size contract) in
      emit (print (position_vt_symbol position +:+ " "%string
                   +:+ str_Direction (position_direction position)
                   +:+ "当前持仓市值"%string +:+ str_number value))
  | _, _ => ret tt
  end.

Fixpoint calculate_value_loop (values : list PositionData) : M unit :=
  match values with
  | [] => ret tt
  | position :: rest =>
      calculate_value_body position;;; calculate_value_loop rest
  end.

Definition calculate_value : M unit :=
  do s <- get_self;
  calculate_value_loop (dict_values (positions s)).

Definition process_timer_event : M unit := calculate_value.

(** ** The event loop

    [__init__] registers a handler for tick, contract, position and log
    events; the registration of the timer handler is commented out, and the
    engine has no handler for its own strategy events. *)
Definition dispatch (event : Event) : M unit :=
  match event with
  | EVENT_TICK tick => process_tick_event tick
  | EVENT_CONTRACT contract => process_contract_event contract
  | EVENT_POSITION position => process_position_event position
  | EVENT_LOG log => process_log_event log
  | EVENT_TIMER => ret tt
  | EVENT_STRATEGY _ => ret tt
  end.

(** What one delivered event did: the calls it made and how the handler
    ended. *)
Record Step := {
  step_event : Event;
  step_effects : list Effect;
  step_result : Result unit
}.

(** Events are handled one after the other, each handler running to
    completion.  An exception that escapes a handler ends the run: the
    state keeps what the handler had written before it raised.  The events
    the engine itself puts on the bus are recorded as calls; whether and
    when the bus delivers them back is up to the event sequence. *)
Fixpoint run_events (s : StrategyEngine) (events : list Event)
  : list Step * StrategyEngine :=
  match events with
  | [] => ([], s)
  | event :: rest =>
      match dispatch event s with
      | (Return tt, s1, out) =>
          let '(steps, s2) := run_events s1 rest in
          ({| step_event := event; step_effects := out;
              step_result := Return tt |} :: steps, s2)
      | (Raise e, s1, out) =>
          ([{| step_event := event; step_effects := out;
               step_result := Raise e |}], s1)
      end
  end.

(** ** Observations on a state and on the calls made *)

(** The target state of an instrument: a missing key of the [defaultdict]
    reads as [0]. *)
Definition target (s : StrategyEngine) (k : string) : Z :=
  default 0 (trading_targets s !! k).

(** The tick history of an instrument: a missing key reads as [[]]. *)
Definition history (s : StrategyEngine) (k : string) : list TickData :=
  default [] (tick_history s !! k).

Definition subscribes_of (out : list Effect) : list SubscribeRequest :=
  omap (fun e => match e with gateway_subscribe req => Some req | _ => None end) out.

Definition orders_of (out : list Effect) : list OrderRequest :=
  omap (fun e => match e with gateway_send_order req => Some req | _ => None end) out.

(** The status events ([EVENT_STRATEGY]) put on the bus. *)
Definition status_of (out : list Effect) : list StrategyData :=
  omap (fun e => match e with
                 | event_engine_put (EVENT_STRATEGY data) => Some data
                 | _ => None
                 end) out.

(** The log events ([EVENT_LOG]) put on the bus. *)
Definition logs_of (out : list Effect) : list LogData :=
  omap (fun e => match e with
                 | event_engine_put (EVENT_LOG log) => Some log
                 | _ => None
                 end) out.

(** The request both subscription paths build from a contract. *)
Definition subscribe_request (contract : ContractData) : SubscribeRequest :=
  {| sub_symbol := contract_symbol contract;
     sub_exchange := contract_exchange contract |}.

(** Whether an event is a contract (position) event of instrument [k], and
    whether a step handled one. *)
Definition is_contract_event (k : string) (event : Event) : bool :=
  match event with
  | EVENT_CONTRACT contract => bool_decide (contract_vt_symbol contract = k)
  | _ => false
  end.

Definition is_position_event (k : string) (event : Event) : bool :=
  match event with
  | EVENT_POSITION position => bool_decide (position_vt_symbol position = k)
  | _ => false
  end.

Definition is_contract_step (k : string) (st : Step) : bool :=
  is_contract_event k (step_event st).

Definition is_position_step (k : string) (st : Step) : bool :=
  is_position_event k (step_event st).

(** Number of subscribe calls made by the steps that satisfy [sel]. *)
Fixpoint count_subscribes (sel : Step → bool) (steps : list Step) : nat :=
  match steps with
  | [] => 0%nat
  | st :: rest =>
      ((if sel st then length (subscribes_of (step_effects st)) else 0)
       + count_subscribes sel rest)%nat
  end.

(** Subscribe calls for instrument [k]: through the contract handler,
    through the position handler, and in total.  A call belongs to the
    instrument of the event that made the handler subscribe; the request
    carries the symbol and exchange of the contract stored under that key
    (see [contracts_keyed]). *)
Definition contract_subscribes (k : string) (steps : list Step) : nat :=
  count_subscribes (is_contract_step k) steps.

Definition position_subscribes (k : string) (steps : list Step) : nat :=
  count_subscribes (is_position_step k) steps.

Definition subscribes_for (k : string) (steps : list Step) : nat :=
  (contract_subscribes k steps + position_subscribes k steps)%nat.

(** Number of handled steps that satisfy [sel]. *)
Fixpoint count_steps (sel : Step → bool) (steps : list Step) : nat :=
  match steps with
  | [] => 0%nat
  | st :: rest => ((if sel st then 1 else 0) + count_steps sel rest)%nat
  end.

(** Number of contract events of instrument [k] among the handled steps. *)
Definition contract_events (k : string) (steps : list Step) : nat :=
  count_steps (is_contract_step k) steps.

(** Functional updates of single fields, for stating results. *)
Definition with_ticks (s : StrategyEngine) (m : gmap string TickData) :=
  {| ticks := m; contracts := contracts s; positions := positions s;
     subscribed := subscribed s; tick_history := tick_history s;
     trading_symbols := trading_symbols s;
     trading_targets := trading_targets s |}.

Definition with_contracts (s : StrategyEngine) (m : gmap string ContractData) :=
  {| ticks := ticks s; contracts := m; positions := positions s;
     subscribed := subscribed s; tick_history := tick_history s;
     trading_symbols := trading_symbols s;
     trading_targets := trading_targets s |}.

Definition with_positions (s : StrategyEngine) (d : list (string * PositionData)) :=
  {| ticks := ticks s; contracts := contracts s; positions := d;
     subscribed := subscribed s; tick_history := tick_history s;
     trading_symbols := trading_symbols s;
     trading_targets := trading_targets s |}.

Definition with_subscribed (s : StrategyEngine) (x : gset string) :=
  {| ticks := ticks s; contracts := contracts s; positions := positions s;
     subscribed := x; tick_history := tick_history s;
     trading_symbols := trading_symbols s;
     trading_targets := trading_targets s |}.

Definition with_tick_history (s : StrategyEngine) (m : gmap string (list TickData)) :=
  {| ticks := ticks s; contracts := contracts s; positions := positions s;
     subscribed := subscribed s; tick_history := m;
     trading_symbols := trading_symbols s;
     trading_targets := trading_targets s |}.

Definition with_trading_targets (s : StrategyEngine) (m : gmap string Z) :=
  {| ticks := ticks s; contracts := contracts s; positions := positions s;
     subscribed := subscribed s; tick_history := tick_history s;
     trading_symbols := trading_symbols s;
     trading_targets := m |}.

(** The invariant of the subscription record: every subscribed instrument
    has a stored contract. *)
Definition subscribed_have_contract (s : StrategyEngine) : Prop :=
  ∀ k, k ∈ subscribed s → is_Some (contracts s !! k).

(** The two orders of the momentum rule and the status event. *)
Definition buy_order (contract : ContractData) (tick1 : TickData) : OrderRequest :=
  {| order_symbol := contract_symbol contract;
     order_exchange := contract_exchange contract;
     order_direction := LONG; order_type := LIMIT;
     order_price := num_add (tick_last_price tick1) (num_of_Z 10);
     order_volume := num_of_Z 1; order_offset := OPEN |}.

Definition sell_order (contract : ContractData) (tick1 : TickData) : OrderRequest :=
  {| order_symbol := contract_symbol contract;
     order_exchange := contract_exchange contract;
     order_direction := SHORT; order_type := LIMIT;
     order_price := num_sub (tick_last_price tick1) (num_of_Z 10);
     order_volume := num_of_Z 1; order_offset := CLOSE |}.

Definition status_data (k : string) (tick1 : TickData) (tgt : Z) : StrategyData :=
  {| sd_vt_symbol := k;
     sd_datetime := tick_datetime tick1;
     sd_last_price := tick_last_price tick1;
     sd_trading_target := tgt |}.

Definition buy_log (k : string) (tick1 : TickData) : LogData :=
  {| log_msg := k +:+ "买入开仓1手 "%string +:+ str_datetime (tick_datetime tick1);
     log_gateway_name := "STRATEGY"%string |}.

Definition sell_log (k : string) (tick1 : TickData) : LogData :=
  {| log_msg := k +:+ "卖出平仓1手 "%string +:+ str_datetime (tick_datetime tick1);
     log_gateway_name := "STRATEGY"%string |}.

(** Strictly rising and strictly falling prices over the three most recent
    ticks, [tick1] the newest: the two chained comparisons of [run_trading]. *)
Definition rising (tick1 tick2 tick3 : TickData) : bool :=
  num_gt (tick_last_price tick1) (tick_last_price tick2)
  && num_gt (tick_last_price tick2) (tick_last_price tick3).

Definition falling (tick1 tick2 tick3 : TickData) : bool :=
  num_lt (tick_last_price tick1) (tick_last_price tick2)
  && num_lt (tick_last_price tick2) (tick_last_price tick3).

(** What the momentum rule decides from the three most recent ticks and
    the target [tgt] read before the checks: whether the long check sends
    its order, the target after it, whether the short check (which reads
    the target again) sends its order, and the target at the end. *)
Definition buys (tick1 tick2 tick3 : TickData) (tgt : Z) : bool :=
  rising tick1 tick2 tick3 && (tgt =? 0).

Definition sells (tick1 tick2 tick3 : TickData) (tgt : Z) : bool :=
  falling tick1 tick2 tick3
  && (0 <? (if buys tick1 tick2 tick3 tgt then 1 else tgt)).

Definition next_target (tick1 tick2 tick3 : TickData) (tgt : Z) : Z :=
  if sells tick1 tick2 tick3 tgt then 0
  else if buys tick1 tick2 tick3 tgt then 1 else tgt.

(** The calls of one evaluation of the rule, in order. *)
Definition trading_calls (k : string) (contract : ContractData)
    (tick1 tick2 tick3 : TickData) (tgt : Z) : list Effect :=
  (if buys tick1 tick2 tick3 tgt
   then [gateway_send_order (buy_order contract tick1);
         event_engine_put (EVENT_LOG (buy_log k tick1))]
   else [])
  ++ (if sells tick1 tick2 tick3 tgt
      then [gateway_send_order (sell_order contract tick1);
            event_engine_put (EVENT_LOG (sell_log k tick1))]
      else [])
  ++ [event_engine_put
        (EVENT_STRATEGY (status_data k tick1 (next_target tick1 tick2 tick3 tgt)))].

(** The state in which [process_tick_event] calls [run_trading] for a tick
    of a trading-set instrument: the tick is stored and appended to the
    history of its instrument. *)
Definition tick_stored (s : StrategyEngine) (tick : TickData) : StrategyEngine :=
  with_tick_history
    (with_ticks s (<[tick_vt_symbol tick := tick]> (ticks s)))
    (<[tick_vt_symbol tick := history s (tick_vt_symbol tick) ++ [tick]]>
       (tick_history s)).

(** ** The valuation report, as the specification words it

    For each known position, in order: skipped when the tick or the
    contract of its instrument is absent, otherwise one line carrying
    [volume * lastPrice * multiplier]. *)
Definition market_value (position : PositionData) (tick : TickData)
    (contract : ContractData) : number :=
  num_mul (num_mul (position_volume position) (tick_last_price tick))
          (contract_size contract).

Definition value_line (s : StrategyEngine) (position : PositionData) : option string :=
  match ticks s !! position_vt_symbol position,
        contracts s !! position_vt_symbol position with
  | Some tick, Some contract =>
      Some (position_vt_symbol position +:+ " "%string
            +:+ str_Direction (position_direction position)
            +:+ "当前持仓市值"%string
            +:+ str_number (market_value position tick contract))
  | _, _ => None
  end.

Definition valuation_report (s : StrategyEngine) : list string :=
  omap (value_line s) (snd <$> positions s).

(** Every stored contract is stored under its own instrument key. *)
Definition contracts_keyed (s : StrategyEngine) : Prop :=
  ∀ k contract, contracts s !! k = Some contract → contract_vt_symbol contract = k.

(** ** Invariants of the target states *)

(** Every target state is Flat ([0]) or Long ([1]). *)
Definition targets_flat_or_long (s : StrategyEngine) : Prop :=
  ∀ k, target s k = 0 ∨ target s k = 1.

(** An instrument whose target is not Flat has a stored contract. *)
Definition long_have_contract (s : StrategyEngine) : Prop :=
  ∀ k, target s k ≠ 0 → is_Some (contracts s !! k).

(** ** Statements of the specification that the engine does not meet as
    worded *)

(** No instrument is ever subscribed twice in one run. *)
Definition subscribed_once_as_stated (vt_symbols : list string)
    (events : list Event) : Prop :=
  ∀ k, (subscribes_for k (run_events (init vt_symbols) events).1 ≤ 1)%nat.

(** A rising triple in state Flat always opens the long position, whatever
    else is known about the instrument. *)
Definition long_entry_as_stated (s : StrategyEngine) (tick : TickData) : Prop :=
  ∀ pre tick3 tick2,
    tick_vt_symbol tick ∈ trading_symbols s →
    history s (tick_vt_symbol tick) = pre ++ [tick3; tick2] →
    rising tick tick2 tick3 = true →
    target s (tick_vt_symbol tick) = 0 →
    ∃ order,
      orders_of (process_tick_event tick s).2 = [order]
      ∧ order_direction order = LONG
      ∧ order_offset order = OPEN
      ∧ order_type order = LIMIT
      ∧ order_price order = num_add (tick_last_price tick) (num_of_Z 10)
      ∧ order_volume order = num_of_Z 1
      ∧ target (process_tick_event tick s).1.2 (tick_vt_symbol tick) = 1
      ∧ logs_of (process_tick_event tick s).2 ≠ [].

(** A position delivered before the contract of its instrument: no
    subscribe before the contract, exactly one in total after it. *)
Definition position_first_as_stated (vt_symbols : list string)
    (position : PositionData) (contract : ContractData) : Prop :=
  position_vt_symbol position = contract_vt_symbol contract →
  subscribes_for (position_vt_symbol position)
    (run_events (init vt_symbols) [EVENT_POSITION position]).1 = 0%nat
  ∧ subscribes_for (position_vt_symbol position)
      (run_events (init vt_symbols)
         [EVENT_POSITION position; EVENT_CONTRACT contract]).1 = 1%nat.

(** Every tick of a trading-set instrument puts exactly one status event on
    the bus. *)
Definition status_always_as_stated (s : StrategyEngine) (tick : TickData) : Prop :=
  tick_vt_symbol tick ∈ trading_symbols s →
  length (status_of (process_tick_event tick s).2) = 1%nat.

(** ** Construction of the engine

    [__init__] before it calls [load_setting]: every container is empty. *)
Definition new_engine : StrategyEngine :=
  {| ticks := ∅; contracts := ∅; positions := []; subscribed := ∅;
     tick_history := ∅; trading_symbols := ∅; trading_targets := ∅ |}.

(** [self.trading_symbols.add(code)]. *)
Definition trading_symbols_add (code : string) : M unit :=
  do s <- get_self;
  put_self {| ticks := ticks s; contracts := contracts s;
              positions := positions s; subscribed := subscribed s;
              tick_history := tick_history s;
              trading_symbols := {[code]} ∪ trading_symbols s;
              trading_targets := trading_targets s |}.

(** [load_setting], given the list that [json.load] returned: the loop adds
    the codes one by one. *)
Fixpoint load_setting (vt_symbols : list string) : M unit :=
  match vt_symbols with
  | [] => ret tt
  | code :: rest => trading_symbols_add code;;; load_setting rest
  end.

(** ** Further observations *)

(** Whether an event is a tick of instrument [k], and whether a step
    handled one. *)
Definition is_tick_event (k : string) (event : Event) : bool :=
  match event with
  | EVENT_TICK tick => bool_decide (tick_vt_symbol tick = k)
  | _ => false
  end.

Definition is_tick_step (k : string) (st : Step) : bool :=
  is_tick_event k (step_event st).

Definition is_buy (order : OrderRequest) : bool :=
  match order_direction order with LONG => true | _ => false end.

Definition is_sell (order : OrderRequest) : bool :=
  match order_direction order with SHORT => true | _ => false end.

(** Number of orders satisfying [sel] that the ticks of instrument [k]
    sent. *)
Fixpoint count_orders (sel : OrderRequest → bool) (k : string)
    (steps : list Step) : nat :=
  match steps with
  | [] => 0%nat
  | st :: rest =>
      ((if is_tick_step k st
        then length (List.filter sel (orders_of (step_effects st))) else 0)
       + count_orders sel k rest)%nat
  end.

(** The events a handler put on the bus. *)
Definition puts_of (out : list Effect) : list Event :=
  omap (fun e => match e with event_engine_put event => Some event | _ => None end) out.

(** The lines a handler printed. *)
Definition prints_of (out : list Effect) : list string :=
  omap (fun e => match e with print line => Some line | _ => None end) out.

(** Every trading-set instrument has a stored contract. *)
Definition trading_have_contract (s : StrategyEngine) : Prop :=
  ∀ k, k ∈ trading_symbols s → is_Some (contracts s !! k).

(** The tick histories hold ticks of their own instrument only, exist for
    trading-set instruments only, and end in the latest tick stored for the
    instrument. *)
Definition history_keyed (s : StrategyEngine) : Prop :=
  ∀ k tick, tick ∈ history s k → tick_vt_symbol tick = k.

Definition history_trading_only (s : StrategyEngine) : Prop :=
  ∀ k, k ∉ trading_symbols s → history s k = [].

Definition latest_is_last (s : StrategyEngine) : Prop :=
  ∀ k, k ∈ trading_symbols s → ticks s !! k = last (history s k).

(** ** When the position path is due to subscribe

    Read off an event sequence alone: some position event of instrument [k]
    comes after a contract event of [k].  [position_subscribe_due] decides
    it, [known] telling whether a contract of [k] is stored at the start. *)
Definition position_after_contract (k : string) (events : list Event) : Prop :=
  ∃ pre position post,
    events = pre ++ EVENT_POSITION position :: post
    ∧ position_vt_symbol position = k
    ∧ Exists (fun event => is_contract_event k event = true) pre.

Fixpoint position_subscribe_due (k : string) (known : bool)
    (events : list Event) : bool :=
  match events with
  | [] => false
  | event :: rest =>
      if is_position_event k event && known then true
      else position_subscribe_due k (known || is_contract_event k event) rest
  end.

End Engine.

(** ** Concrete data for the runs evaluated below (prices are integers) *)
Definition rb : string := "rb2405.SHFE"%string.

Definition rb_contract : @ContractData Z_values :=
  {| contract_vt_symbol := rb; contract_symbol := "rb2405"%string;
     contract_exchange := "SHFE"%string; contract_size := 10 |}.

Definition rb_position : @PositionData Z_values :=
  {| position_vt_positionid := "CTP.rb2405.SHFE.Direction.LONG"%string;
     position_vt_symbol := rb; position_direction := LONG;
     position_volume := 2 |}.

Definition rb_tick (price time : Z) : @TickData Z_values :=
  {| tick_vt_symbol := rb; tick_last_price := price; tick_datetime := time |}.

(** The engine trading [rb] after two rising ticks, no contract received. *)
Definition two_ticks_no_contract : @StrategyEngine Z_values :=
  (run_events (init [rb]) [EVENT_TICK (rb_tick 10 1); EVENT_TICK (rb_tick 11 2)]).2.

(** The same after the contract was received first. *)
Definition two_ticks_with_contract : @StrategyEngine Z_values :=
  (run_events (init [rb])
     [EVENT_CONTRACT rb_contract;
      EVENT_TICK (rb_tick 10 1); EVENT_TICK (rb_tick 11 2)]).2.

(** The engine trading [rb], long after the ticks 10, 11, 12, and one more
    rising tick delivered. *)
Definition long_and_rising : @StrategyEngine Z_values :=
  (run_events (init [rb])
     [EVENT_CONTRACT rb_contract;
      EVENT_TICK (rb_tick 10 1); EVENT_TICK (rb_tick 11 2);
      EVENT_TICK (rb_tick 12 3); EVENT_TICK (rb_tick 13 4)]).2.

(** A second instrument, outside the trading set. *)
Definition hc : string := "hc2405.SHFE"%string.

Definition hc_contract : @ContractData Z_values :=
  {| contract_vt_symbol := hc; contract_symbol := "hc2405"%string;
     contract_exchange := "SHFE"%string; contract_size := 10 |}.

Definition hc_position : @PositionData Z_values :=
  {| position_vt_positionid := "CTP.hc2405.SHFE.Direction.SHORT"%string;
     position_vt_symbol := hc; position_direction := SHORT;
     position_volume := 3 |}.

(** The engine trading [rb] with [rb] subscribed through its position, and
    the contract of [hc] received. *)
Definition rb_subscribed_hc_known : @StrategyEngine Z_values :=
  (run_events (init [rb])
     [EVENT_CONTRACT rb_contract; EVENT_POSITION rb_position;
      EVENT_CONTRACT hc_contract]).2.

(** The engine trading [rb] holding a position in it, after the contract
    and two rising ticks. *)
Definition position_and_two_ticks : @StrategyEngine Z_values :=
  (run_events (init [rb])
     [EVENT_CONTRACT rb_contract; EVENT_POSITION rb_position;
      EVENT_TICK (rb_tick 10 1); EVENT_TICK (rb_tick 11 2)]).2.

(** The events that bring the engine trading [rb] to the long position
    (contract, ticks 10, 11, 12) followed by the tick 11. *)
Definition long_events : list (@Event Z_values) :=
  [EVENT_CONTRACT rb_contract;
   EVENT_TICK (rb_tick 10 1); EVENT_TICK (rb_tick 11 2);
   EVENT_TICK (rb_tick 12 3); EVENT_TICK (rb_tick 11 4)].

(** * Properties

    Everything below holds for every instance of [Values]. *)
Section Properties.
Context `{V : Values}.

(** ** Running a method body *)

Lemma bind_Return {A B} (m : M A) (f : A → M B) s a s1 out1 :
  m s = (Return a, s1, out1) →
  bind m f s = (let '(r, s2, out2) := f a s1 in (r, s2, out1 ++ out2)).
Proof. intros Hm. unfold bind. rewrite Hm. destruct (f a s1) as [[r s2] out2]. reflexivity. Qed.

Lemma bind_Raise {A B} (m : M A) (f : A → M B) s e s1 out1 :
  m s = (Raise e, s1, out1) → bind m f s = (Raise e, s1, out1).
Proof. intros Hm. unfold bind. rewrite Hm. reflexivity. Qed.

Lemma bind_assoc {A B C} (m : M A) (f : A → M B) (g : B → M C) s :
  bind (bind m f) g s = bind m (fun a => bind (f a) g) s.
Proof.
  unfold bind. destruct (m s) as [[[a|e] s1] out1]; [|reflexivity].
  destruct (f a s1) as [[[b|e] s2] out2]; [|reflexivity].
  destruct (g b s2) as [[r s3] out3]. by rewrite app_assoc.
Qed.

Lemma ret_eq {A} (a : A) s : ret a s = (Return a, s, []).
Proof. reflexivity. Qed.

Lemma emit_eq e s : emit e s = (Return tt, s, [e]).
Proof. reflexivity. Qed.

Lemma write_log_eq msg s :
  write_log msg s
  = (Return tt, s,
     [event_engine_put
        (EVENT_LOG {| log_msg := msg; log_gateway_name := "STRATEGY" |})]).
Proof. reflexivity. Qed.

(** ** The primitive accesses *)

Lemma trading_targets_setitem_eq k v s :
  trading_targets_setitem k v s
  = (Return tt, with_trading_targets s (<[k := v]> (trading_targets s)), []).
Proof. reflexivity. Qed.

Lemma target_insert s m k v :
  target (with_trading_targets s (<[k := v]> m)) k = v.
Proof. unfold target. simpl. by rewrite lookup_insert_eq. Qed.

Lemma trading_targets_with s m : trading_targets (with_trading_targets s m) = m.
Proof. reflexivity. Qed.

Lemma with_trading_targets_twice s m1 m2 :
  with_trading_targets (with_trading_targets s m1) m2 = with_trading_targets s m2.
Proof. reflexivity. Qed.

(** Reading a [defaultdict] returns the value the key reads as and leaves
    the key present with that value. *)
Lemma trading_targets_getitem_eq k s :
  trading_targets_getitem k s
  = (Return (target s k),
     with_trading_targets s (<[k := target s k]> (trading_targets s)), []).
Proof.
  unfold trading_targets_getitem, target, bind, get_self, put_self, ret, with_trading_targets.
  destruct (trading_targets s !! k) as [v|] eqn:Hk; simpl.
  - rewrite insert_id by done. by destruct s.
  - done.
Qed.

Lemma tick_history_getitem_eq k s :
  tick_history_getitem k s
  = (Return (history s k),
     with_tick_history s (<[k := history s k]> (tick_history s)), []).
Proof.
  unfold tick_history_getitem, history, bind, get_self, put_self, ret, with_tick_history.
  destruct (tick_history s !! k) as [v|] eqn:Hk; simpl.
  - rewrite insert_id by done. by destruct s.
  - done.
Qed.

(** [l[-i]] is the element that has [i - 1] elements after it. *)
Lemma list_getitem_neg_app {A} (l pre post : list A) x (i : nat) s :
  l = pre ++ x :: post →
  i = S (length post) →
  list_getitem_neg l i s = (Return x, s, []).
Proof.
  intros -> ->. unfold list_getitem_neg.
  rewrite length_app. simpl.
  destruct (decide _) as [_|Hn]; [|lia].
  replace (length pre + S (length post) - S (length post))%nat with (length pre + 0)%nat by lia.
  rewrite lookup_app_r by lia.
  replace (length pre + 0 - length pre)%nat with 0%nat by lia. reflexivity.
Qed.

(** The three most recent entries of a history that ends in [t3; t2; t1]. *)
Lemma last_three {A} (l pre : list A) t3 t2 t1 s :
  l = pre ++ [t3; t2; t1] →
  list_getitem_neg l 1 s = (Return t1, s, [])
  ∧ list_getitem_neg l 2 s = (Return t2, s, [])
  ∧ list_getitem_neg l 3 s = (Return t3, s, []).
Proof.
  intros Hl. repeat split.
  - apply (list_getitem_neg_app l (pre ++ [t3; t2]) [] t1); [|reflexivity].
    rewrite Hl, <- app_assoc. reflexivity.
  - apply (list_getitem_neg_app l (pre ++ [t3]) [t1] t2); [|reflexivity].
    rewrite Hl, <- app_assoc. reflexivity.
  - apply (list_getitem_neg_app l pre [t2; t1] t3); [exact Hl | reflexivity].
Qed.

Lemma contracts_getitem_Some k s c :
  contracts s !! k = Some c → contracts_getitem k s = (Return c, s, []).
Proof. intros Hc. unfold contracts_getitem, bind, get_self. simpl. rewrite Hc. reflexivity. Qed.

Lemma contracts_getitem_None k s :
  contracts s !! k = None → contracts_getitem k s = (Raise (KeyError k), s, []).
Proof. intros Hc. unfold contracts_getitem, bind, get_self. simpl. rewrite Hc. reflexivity. Qed.

(** ** [run_trading] in closed form

    One equation for each way through the method: the early return, the
    failing contract lookup, and the evaluation of the rule. *)

Lemma run_trading_short k s :
  (length (history s k) < 3)%nat →
  run_trading k s
  = (Return tt, with_tick_history s (<[k := history s k]> (tick_history s)), []).
Proof.
  intros Hlen. unfold run_trading.
  erewrite bind_Return by apply tick_history_getitem_eq.
  destruct (decide _); [reflexivity | lia].
Qed.

Lemma run_trading_no_contract k s pre t3 t2 t1 :
  history s k = pre ++ [t3; t2; t1] →
  contracts s !! k = None →
  run_trading k s
  = (Raise (KeyError k),
     with_tick_history s (<[k := history s k]> (tick_history s)), []).
Proof.
  intros Hh Hc. unfold run_trading.
  erewrite bind_Return by apply tick_history_getitem_eq.
  assert (length (history s k) = (length pre + 3)%nat) as Hlen.
  { rewrite Hh, length_app. reflexivity. }
  destruct (decide _) as [Hlt|_]; [lia|].
  set (s0 := with_tick_history _ _).
  destruct (last_three _ _ _ _ _ s0 Hh) as (H1 & H2 & H3).
  erewrite bind_Return by exact H1.
  erewrite bind_Return by exact H2.
  erewrite bind_Return by exact H3.
  erewrite bind_Raise by (apply contracts_getitem_None; exact Hc).
  reflexivity.
Qed.

(** One step of a method body: reassociate a nested sequence, or run its
    first call. *)
Ltac run_step :=
  first
    [ rewrite bind_assoc
    | erewrite bind_Return by
        first [ apply trading_targets_getitem_eq | apply emit_eq
              | apply write_log_eq | apply trading_targets_setitem_eq
              | apply ret_eq ] ];
  cbv beta iota.

Lemma run_trading_eq k s pre t3 t2 t1 c :
  history s k = pre ++ [t3; t2; t1] →
  contracts s !! k = Some c →
  run_trading k s
  = (Return tt,
     with_trading_targets
       (with_tick_history s (<[k := history s k]> (tick_history s)))
       (<[k := next_target t1 t2 t3 (target s k)]> (trading_targets s)),
     trading_calls k c t1 t2 t3 (target s k)).
Proof.
  intros Hh Hc. unfold run_trading.
  erewrite bind_Return by apply tick_history_getitem_eq.
  assert (length (history s k) = (length pre + 3)%nat) as Hlen.
  { rewrite Hh, length_app. reflexivity. }
  destruct (decide _) as [Hlt|_]; [lia|].
  set (s0 := with_tick_history _ _).
  destruct (last_three _ _ _ _ _ s0 Hh) as (H1 & H2 & H3).
  erewrite bind_Return by exact H1.
  erewrite bind_Return by exact H2.
  erewrite bind_Return by exact H3.
  erewrite bind_Return by (apply contracts_getitem_Some; exact Hc).
  unfold trading_calls, next_target, sells, buys, rising, falling.
  assert (target s0 k = target s k) as Ht0 by reflexivity.
  assert (trading_targets s0 = trading_targets s) as Hm0 by reflexivity.
  clearbody s0. clear H1 H2 H3.
  remember (target s k) as tg eqn:Htg.
  destruct (num_gt (tick_last_price t1) (tick_last_price t2)
            && num_gt (tick_last_price t2) (tick_last_price t3)) eqn:HR;
  destruct (num_lt (tick_last_price t1) (tick_last_price t2)
            && num_lt (tick_last_price t2) (tick_last_price t3)) eqn:HF;
  destruct (tg =? 0) eqn:Hz; destruct (0 <? tg) eqn:Hp; try lia;
  cbn [andb];
  repeat (first [ run_step
                | progress rewrite ?with_trading_targets_twice, ?target_insert,
                    ?Ht0, ?Hz, ?Hp
                | progress change (0 <? 1) with true ];
          cbv beta iota);
  cbn [app]; rewrite ?trading_targets_with, ?insert_insert_eq, ?Hm0; reflexivity.
Qed.

(** ** The tick handler *)

Lemma history_tick_stored s tick :
  history (tick_stored s tick) (tick_vt_symbol tick)
  = history s (tick_vt_symbol tick) ++ [tick].
Proof. unfold history, tick_stored. simpl. by rewrite lookup_insert_eq. Qed.

(** A tick outside the trading set is stored and nothing else happens; a
    tick of the trading set is stored, appended, and handed to
    [run_trading]. *)
Lemma process_tick_event_other tick s :
  tick_vt_symbol tick ∉ trading_symbols s →
  process_tick_event tick s
  = (Return tt, with_ticks s (<[tick_vt_symbol tick := tick]> (ticks s)), []).
Proof.
  intros Hk. unfold process_tick_event.
  erewrite bind_Return by reflexivity.
  erewrite bind_Return by reflexivity.
  destruct (decide _); [done | reflexivity].
Qed.

Lemma process_tick_event_trading tick s :
  tick_vt_symbol tick ∈ trading_symbols s →
  process_tick_event tick s = run_trading (tick_vt_symbol tick) (tick_stored s tick).
Proof.
  intros Hk. unfold process_tick_event.
  erewrite bind_Return by reflexivity.
  erewrite bind_Return by reflexivity.
  destruct (decide _); [| done].
  erewrite bind_Return by apply tick_history_getitem_eq.
  erewrite bind_Return by reflexivity.
  cbn [app].
  replace (tick_stored s tick) with
    (with_tick_history
       (with_ticks s (<[tick_vt_symbol tick := tick]> (ticks s)))
       (<[tick_vt_symbol tick := history s (tick_vt_symbol tick) ++ [tick]]>
          (<[tick_vt_symbol tick := history s (tick_vt_symbol tick)]> (tick_history s))))
    by (unfold tick_stored; by rewrite insert_insert_eq).
  destruct (run_trading _ _) as [[r s'] out] eqn:Hrun.
  revert Hrun. unfold with_tick_history, with_ticks, history. simpl.
  rewrite lookup_insert_eq. simpl. intros ->. reflexivity.
Qed.

Lemma tick_stored_refresh s tick :
  with_tick_history (tick_stored s tick)
    (<[tick_vt_symbol tick := history (tick_stored s tick) (tick_vt_symbol tick)]>
       (tick_history (tick_stored s tick)))
  = tick_stored s tick.
Proof.
  rewrite history_tick_stored. unfold tick_stored, with_tick_history. simpl.
  by rewrite insert_insert_eq.
Qed.

Lemma process_tick_event_short tick s :
  tick_vt_symbol tick ∈ trading_symbols s →
  (length (history s (tick_vt_symbol tick)) < 2)%nat →
  process_tick_event tick s = (Return tt, tick_stored s tick, []).
Proof.
  intros Hk Hlen. rewrite process_tick_event_trading by done.
  rewrite run_trading_short.
  - by rewrite tick_stored_refresh.
  - rewrite history_tick_stored, length_app. simpl. lia.
Qed.

Lemma process_tick_event_no_contract tick s pre t3 t2 :
  tick_vt_symbol tick ∈ trading_symbols s →
  history s (tick_vt_symbol tick) = pre ++ [t3; t2] →
  contracts s !! tick_vt_symbol tick = None →
  process_tick_event tick s
  = (Raise (KeyError (tick_vt_symbol tick)), tick_stored s tick, []).
Proof.
  intros Hk Hh Hc. rewrite process_tick_event_trading by done.
  rewrite (run_trading_no_contract _ _ pre t3 t2 tick).
  - by rewrite tick_stored_refresh.
  - rewrite history_tick_stored, Hh, <- app_assoc. reflexivity.
  - exact Hc.
Qed.

Lemma process_tick_event_eval tick s pre t3 t2 c :
  tick_vt_symbol tick ∈ trading_symbols s →
  history s (tick_vt_symbol tick) = pre ++ [t3; t2] →
  contracts s !! tick_vt_symbol tick = Some c →
  process_tick_event tick s
  = (Return tt,
     with_trading_targets (tick_stored s tick)
       (<[tick_vt_symbol tick := next_target tick t2 t3 (target s (tick_vt_symbol tick))]>
          (trading_targets s)),
     trading_calls (tick_vt_symbol tick) c tick t2 t3 (target s (tick_vt_symbol tick))).
Proof.
  intros Hk Hh Hc. rewrite process_tick_event_trading by done.
  rewrite (run_trading_eq _ _ pre t3 t2 tick c).
  - by rewrite tick_stored_refresh.
  - rewrite history_tick_stored, Hh, <- app_assoc. reflexivity.
  - exact Hc.
Qed.

(** The two checks exclude each other, by asymmetry of [<]. *)
Lemma rising_not_falling t1 t2 t3 : rising t1 t2 t3 = true → falling t1 t2 t3 = false.
Proof.
  unfold rising, falling, num_gt. intros [H12 _]%andb_true_iff.
  by rewrite (num_lt_asym _ _ H12).
Qed.

Lemma falling_not_rising t1 t2 t3 : falling t1 t2 t3 = true → rising t1 t2 t3 = false.
Proof.
  unfold rising, falling, num_gt. intros [H12 _]%andb_true_iff.
  by rewrite (num_lt_asym _ _ H12).
Qed.

(** C3 (amended): for a trading-set instrument whose contract is stored,
    when a new tick makes the three most recent prices strictly rising
    ([tick] newest) and the target state is Flat, the handler returns having
    sent exactly one buy-to-open limit order at the price of [tick] plus 10
    with volume 1, then put one log event and the status event on the bus,
    and the target state is 1. *)
Theorem long_entry s tick pre t3 t2 c :
  tick_vt_symbol tick ∈ trading_symbols s →
  history s (tick_vt_symbol tick) = pre ++ [t3; t2] →
  contracts s !! tick_vt_symbol tick = Some c →
  rising tick t2 t3 = true →
  target s (tick_vt_symbol tick) = 0 →
  ∃ s',
    process_tick_event tick s
    = (Return tt, s',
       [gateway_send_order (buy_order c tick);
        event_engine_put (EVENT_LOG (buy_log (tick_vt_symbol tick) tick));
        event_engine_put (EVENT_STRATEGY (status_data (tick_vt_symbol tick) tick 1))])
    ∧ target s' (tick_vt_symbol tick) = 1.
Proof.
  intros Hk Hh Hc Hup Hflat.
  rewrite (process_tick_event_eval tick s pre t3 t2 c Hk Hh Hc).
  unfold trading_calls, next_target, sells, buys.
  rewrite Hup, (rising_not_falling _ _ _ Hup), Hflat. cbn.
  eexists. split; [reflexivity | apply target_insert].
Qed.

(** The same for the exit, in a state where the contract is stored. *)
Lemma long_exit_with_contract s tick pre t3 t2 c :
  tick_vt_symbol tick ∈ trading_symbols s →
  history s (tick_vt_symbol tick) = pre ++ [t3; t2] →
  contracts s !! tick_vt_symbol tick = Some c →
  falling tick t2 t3 = true →
  target s (tick_vt_symbol tick) = 1 →
  ∃ s',
    process_tick_event tick s
    = (Return tt, s',
       [gateway_send_order (sell_order c tick);
        event_engine_put (EVENT_LOG (sell_log (tick_vt_symbol tick) tick));
        event_engine_put (EVENT_STRATEGY (status_data (tick_vt_symbol tick) tick 0))])
    ∧ target s' (tick_vt_symbol tick) = 0.
Proof.
  intros Hk Hh Hc Hdown Hlong.
  rewrite (process_tick_event_eval tick s pre t3 t2 c Hk Hh Hc).
  unfold trading_calls, next_target, sells, buys.
  rewrite Hdown, (falling_not_rising _ _ _ Hdown), Hlong. cbn.
  eexists. split; [reflexivity | apply target_insert].
Qed.

(** ** Ticks without a qualifying transition *)

(** A list has fewer than two elements or ends in two. *)
Lemma short_or_last_two {A} (l : list A) :
  (length l < 2)%nat ∨ ∃ pre t3 t2, l = pre ++ [t3; t2].
Proof.
  destruct (decide (length l < 2)%nat) as [|Hge]; [by left | right].
  exists (take (length l - 2) l).
  assert (length (drop (length l - 2) l) = 2%nat) as Hd by (rewrite length_drop; lia).
  destruct (drop (length l - 2) l) as [|t3 [|t2 [|? ?]]] eqn:Hdrop; simpl in Hd; try lia.
  exists t3, t2. by rewrite <- Hdrop, take_drop.
Qed.

Lemma orders_of_trading_calls k c t1 t2 t3 tgt :
  buys t1 t2 t3 tgt = false → sells t1 t2 t3 tgt = false →
  trading_calls k c t1 t2 t3 tgt
  = [event_engine_put (EVENT_STRATEGY (status_data k t1 tgt))].
Proof.
  intros Hb Hs. unfold trading_calls, next_target. by rewrite Hb, Hs.
Qed.

(** C5: for a trading-set instrument and a new tick, with the target state
    Flat or Long: if fewer than 3 ticks of history exist once the tick is
    appended, or the three most recent prices are neither strictly rising
    with target Flat nor strictly falling with target Long (a plateau, or a
    rising triple delivered again while Long), then no order is sent and the
    target state is unchanged.  With a rising triple the only condition left
    is the target state: it alone holds the order back. *)
Theorem no_transition s tick :
  tick_vt_symbol tick ∈ trading_symbols s →
  target s (tick_vt_symbol tick) = 0 ∨ target s (tick_vt_symbol tick) = 1 →
  ((length (history s (tick_vt_symbol tick) ++ [tick]) < 3)%nat
   ∨ ∃ pre t3 t2,
       history s (tick_vt_symbol tick) = pre ++ [t3; t2]
       ∧ ¬ (rising tick t2 t3 = true ∧ target s (tick_vt_symbol tick) = 0)
       ∧ ¬ (falling tick t2 t3 = true ∧ target s (tick_vt_symbol tick) = 1)) →
  orders_of (process_tick_event tick s).2 = []
  ∧ target (process_tick_event tick s).1.2 (tick_vt_symbol tick)
    = target s (tick_vt_symbol tick).
Proof.
  intros Hk Htgt [Hshort | (pre & t3 & t2 & Hh & Hnobuy & Hnosell)].
  - rewrite process_tick_event_short; [by split | done |].
    rewrite length_app in Hshort. simpl in Hshort. lia.
  - destruct (contracts s !! tick_vt_symbol tick) as [c|] eqn:Hc.
    + rewrite (process_tick_event_eval tick s pre t3 t2 c Hk Hh Hc).
      assert (buys tick t2 t3 (target s (tick_vt_symbol tick)) = false) as Hb.
      { unfold buys. destruct (rising tick t2 t3); [|done].
        destruct Htgt as [Hz|Ho]; [by destruct Hnobuy | by rewrite Ho]. }
      assert (sells tick t2 t3 (target s (tick_vt_symbol tick)) = false) as Hs.
      { unfold sells. rewrite Hb. destruct (falling tick t2 t3); [|done].
        destruct Htgt as [Hz|Ho]; [by rewrite Hz | by destruct Hnosell]. }
      rewrite orders_of_trading_calls by done.
      unfold next_target. rewrite Hb, Hs. simpl. split; [done | apply target_insert].
    + by rewrite (process_tick_event_no_contract tick s pre t3 t2 Hk Hh Hc).
Qed.

Lemma status_of_trading_calls k c t1 t2 t3 tgt :
  ∃ calls,
    trading_calls k c t1 t2 t3 tgt
    = calls ++ [event_engine_put
                  (EVENT_STRATEGY (status_data k t1 (next_target t1 t2 t3 tgt)))]
    ∧ status_of calls = [].
Proof.
  unfold trading_calls. eexists. rewrite app_assoc. split; [reflexivity|].
  by destruct (buys t1 t2 t3 tgt), (sells t1 t2 t3 tgt).
Qed.

(** C8 (amended): for a new tick of a trading-set instrument that has at
    least 3 ticks of history once the tick is appended and whose contract is
    stored, the handler returns and its last call puts the status event on
    the bus; the event carries the instrument key, the time stamp and the
    price of the new tick and the target state after the checks; no other
    call is a status event, and orders go to the gateway, not to the bus. *)
Theorem status_event s tick pre t3 t2 c :
  tick_vt_symbol tick ∈ trading_symbols s →
  history s (tick_vt_symbol tick) = pre ++ [t3; t2] →
  contracts s !! tick_vt_symbol tick = Some c →
  ∃ s' calls,
    process_tick_event tick s
    = (Return tt, s',
       calls ++ [event_engine_put
                   (EVENT_STRATEGY
                      (status_data (tick_vt_symbol tick) tick
                         (target s' (tick_vt_symbol tick))))])
    ∧ status_of calls = []
    ∧ status_of (process_tick_event tick s).2
      = [status_data (tick_vt_symbol tick) tick (target s' (tick_vt_symbol tick))].
Proof.
  intros Hk Hh Hc.
  rewrite (process_tick_event_eval tick s pre t3 t2 c Hk Hh Hc).
  destruct (status_of_trading_calls (tick_vt_symbol tick) c tick t2 t3
              (target s (tick_vt_symbol tick))) as (calls & -> & Hcalls).
  eexists _, calls. rewrite target_insert. split; [reflexivity|]. split; [done|].
  simpl. unfold status_of in *. rewrite omap_app, Hcalls. reflexivity.
Qed.

(** ** Valuation *)

Lemma calculate_value_body_eq s position :
  calculate_value_body position s
  = (Return tt, s, print <$> option_list (value_line s position)).
Proof.
  unfold calculate_value_body, value_line, market_value, bind, get_self.
  destruct (ticks s !! position_vt_symbol position),
    (contracts s !! position_vt_symbol position); reflexivity.
Qed.

Lemma calculate_value_loop_eq s values :
  calculate_value_loop values s = (Return tt, s, print <$> omap (value_line s) values).
Proof.
  induction values as [|position rest IH]; [reflexivity|].
  cbn [calculate_value_loop].
  erewrite bind_Return by apply calculate_value_body_eq.
  rewrite IH. cbn [omap list_omap].
  destruct (value_line s position); reflexivity.
Qed.

Lemma calculate_value_eq s :
  calculate_value s = (Return tt, s, print <$> valuation_report s).
Proof.
  unfold calculate_value. erewrite bind_Return by reflexivity.
  rewrite calculate_value_loop_eq. reflexivity.
Qed.

(** C9: the valuation pass returns without an exception and leaves the
    engine state as it was; it goes through the stored positions, all of
    them and in their order, and prints one line for each position that has
    both the tick and the contract of its instrument and none for the
    others: every stored position with both is printed, and every printed
    line is the line of a stored position.  The line carries
    [volume * last_price * size]. *)
Theorem calculate_value_report s :
  calculate_value s
  = (Return tt, s, print <$> omap (value_line s) (snd <$> positions s))
  ∧ (∀ id position line,
       (id, position) ∈ positions s →
       value_line s position = Some line →
       print line ∈ (calculate_value s).2)
  ∧ (∀ line,
       print line ∈ (calculate_value s).2 →
       ∃ id position,
         (id, position) ∈ positions s ∧ value_line s position = Some line)
  ∧ (∀ position,
       ticks s !! position_vt_symbol position = None
       ∨ contracts s !! position_vt_symbol position = None →
       value_line s position = None)
  ∧ (∀ position tick contract,
       ticks s !! position_vt_symbol position = Some tick →
       contracts s !! position_vt_symbol position = Some contract →
       value_line s position
       = Some (position_vt_symbol position +:+ " "%string
               +:+ str_Direction (position_direction position)
               +:+ "当前持仓市值"%string
               +:+ str_number
                     (num_mul (num_mul (position_volume position)
                                       (tick_last_price tick))
                              (contract_size contract)))).
Proof.
  split; [apply calculate_value_eq|]. rewrite calculate_value_eq. cbn [snd].
  unfold valuation_report. split; [|split; [|split]].
  - intros id position line Hin Hline.
    apply list_elem_of_fmap. exists line. split; [done|].
    apply list_elem_of_omap. exists position. split; [|done].
    apply list_elem_of_fmap. by exists (id, position).
  - intros line (line' & [= <-] & Hin)%list_elem_of_fmap.
    apply list_elem_of_omap in Hin as (position & Hpos & Hline).
    apply list_elem_of_fmap in Hpos as ([id p] & -> & Hin).
    by exists id, p.
  - intros position [Ht|Hc]; unfold value_line.
    + by rewrite Ht.
    + rewrite Hc. by destruct (ticks s !! position_vt_symbol position).
  - intros position tick contract Ht Hc. unfold value_line. by rewrite Ht, Hc.
Qed.

(** ** Subscriptions *)

Lemma process_contract_event_eq contract s :
  process_contract_event contract s
  = (Return tt,
     with_contracts s (<[contract_vt_symbol contract := contract]> (contracts s)),
     if decide (contract_vt_symbol contract ∈ trading_symbols s)
     then [gateway_subscribe (subscribe_request contract)] else []).
Proof.
  unfold process_contract_event, bind, get_self, put_self. simpl.
  destruct (decide _); reflexivity.
Qed.

Lemma process_position_event_eq position s :
  process_position_event position s
  = (Return tt,
     (if decide (position_vt_symbol position ∈ subscribed s) then id
      else match contracts s !! position_vt_symbol position with
           | None => id
           | Some _ =>
               fun s1 => with_subscribed s1 ({[position_vt_symbol position]} ∪ subscribed s)
           end)
       (with_positions s
          (dict_setitem (position_vt_positionid position) position (positions s))),
     if decide (position_vt_symbol position ∈ subscribed s) then []
     else match contracts s !! position_vt_symbol position with
          | None => []
          | Some contract => [gateway_subscribe (subscribe_request contract)]
          end).
Proof.
  unfold process_position_event, bind, get_self, put_self. simpl.
  destruct (decide _); [reflexivity|].
  destruct (contracts s !! position_vt_symbol position); reflexivity.
Qed.

Lemma subscribes_of_trading_calls k c t1 t2 t3 tgt :
  subscribes_of (trading_calls k c t1 t2 t3 tgt) = [].
Proof. unfold trading_calls. by destruct (buys _ _ _ _), (sells _ _ _ _). Qed.

(** A tick changes neither the contracts, nor the subscription record, nor
    the trading set, and subscribes to nothing. *)
Lemma process_tick_event_frame tick s :
  contracts (process_tick_event tick s).1.2 = contracts s
  ∧ subscribed (process_tick_event tick s).1.2 = subscribed s
  ∧ trading_symbols (process_tick_event tick s).1.2 = trading_symbols s
  ∧ subscribes_of (process_tick_event tick s).2 = [].
Proof.
  destruct (decide (tick_vt_symbol tick ∈ trading_symbols s)) as [Hk|Hk].
  - destruct (short_or_last_two (history s (tick_vt_symbol tick)))
      as [Hshort | (pre & t3 & t2 & Hh)].
    + by rewrite process_tick_event_short.
    + destruct (contracts s !! tick_vt_symbol tick) as [c|] eqn:Hc.
      * rewrite (process_tick_event_eval tick s pre t3 t2 c Hk Hh Hc). simpl.
        by rewrite subscribes_of_trading_calls.
      * by rewrite (process_tick_event_no_contract tick s pre t3 t2 Hk Hh Hc).
  - by rewrite process_tick_event_other.
Qed.

(** What each handler does to the contracts, the subscription record and
    the trading set, and the subscribe calls it makes. *)
Lemma dispatch_subscription event s :
  trading_symbols (dispatch event s).1.2 = trading_symbols s
  ∧ match event with
    | EVENT_CONTRACT contract =>
        (dispatch event s).1.1 = Return tt
        ∧ contracts (dispatch event s).1.2
          = <[contract_vt_symbol contract := contract]> (contracts s)
        ∧ subscribed (dispatch event s).1.2 = subscribed s
        ∧ subscribes_of (dispatch event s).2
          = (if decide (contract_vt_symbol contract ∈ trading_symbols s)
             then [subscribe_request contract] else [])
    | EVENT_POSITION position =>
        (dispatch event s).1.1 = Return tt
        ∧ contracts (dispatch event s).1.2 = contracts s
        ∧ subscribed (dispatch event s).1.2
          = (if decide (position_vt_symbol position ∈ subscribed s) then subscribed s
             else match contracts s !! position_vt_symbol position with
                  | None => subscribed s
                  | Some _ => {[position_vt_symbol position]} ∪ subscribed s
                  end)
        ∧ subscribes_of (dispatch event s).2
          = (if decide (position_vt_symbol position ∈ subscribed s) then []
             else match contracts s !! position_vt_symbol position with
                  | None => []
                  | Some contract => [subscribe_request contract]
                  end)
    | _ =>
        contracts (dispatch event s).1.2 = contracts s
        ∧ subscribed (dispatch event s).1.2 = subscribed s
        ∧ subscribes_of (dispatch event s).2 = []
    end.
Proof.
  destruct event as [tick|contract|position| |log|data]; cbn [dispatch].
  - destruct (process_tick_event_frame tick s) as (? & ? & ? & ?). done.
  - rewrite process_contract_event_eq. cbn.
    repeat split. by destruct (decide _).
  - rewrite process_position_event_eq. cbn.
    destruct (decide _); [done|].
    by destruct (contracts s !! position_vt_symbol position).
  - done.
  - done.
  - done.
Qed.

Lemma run_events_cons s event rest :
  run_events s (event :: rest)
  = match (dispatch event s).1.1 with
    | Return _ =>
        ({| step_event := event; step_effects := (dispatch event s).2;
            step_result := Return tt |}
           :: (run_events (dispatch event s).1.2 rest).1,
         (run_events (dispatch event s).1.2 rest).2)
    | Raise e =>
        ([{| step_event := event; step_effects := (dispatch event s).2;
             step_result := Raise e |}],
         (dispatch event s).1.2)
    end.
Proof.
  cbn [run_events]. destruct (dispatch event s) as [[[[]|e] s1] out]; cbn.
  - by destruct (run_events s1 rest).
  - done.
Qed.

(** Induction over a run: the empty run, a step that raises, and a step that
    returns followed by the rest of the run. *)
Lemma run_events_ind (P : StrategyEngine → list Step → StrategyEngine → Prop) :
  (∀ s, P s [] s) →
  (∀ s event e,
     (dispatch event s).1.1 = Raise e →
     P s [{| step_event := event; step_effects := (dispatch event s).2;
             step_result := Raise e |}]
       (dispatch event s).1.2) →
  (∀ s event steps s',
     (dispatch event s).1.1 = Return tt →
     P (dispatch event s).1.2 steps s' →
     P s ({| step_event := event; step_effects := (dispatch event s).2;
             step_result := Return tt |} :: steps) s') →
  ∀ events s, P s (run_events s events).1 (run_events s events).2.
Proof.
  intros Hnil Hraise Hreturn events.
  induction events as [|event rest IH]; intros s; [apply Hnil|].
  rewrite run_events_cons.
  destruct ((dispatch event s).1.1) as [[]|e] eqn:Hr; cbn.
  - by apply Hreturn.
  - by apply Hraise.
Qed.

(** One step of the contract path: a contract event of [k] subscribes once
    when [k] is in the trading set, and nothing else counts. *)
Lemma step_contract_subscribes k event s :
  (if is_contract_event k event
   then length (subscribes_of (dispatch event s).2) else 0%nat)
  = if decide (k ∈ trading_symbols s)
    then (if is_contract_event k event then 1%nat else 0%nat) else 0%nat.
Proof.
  destruct (dispatch_subscription event s) as [_ Hev].
  destruct event as [tick|contract|position| |log|data]; cbn [is_contract_event];
    try (clear Hev; by destruct (decide (k ∈ trading_symbols s))).
  destruct Hev as (_ & _ & _ & ->).
  destruct (bool_decide_reflect (contract_vt_symbol contract = k)) as [->|Hne].
  - by case_decide.
  - by case_decide.
Qed.

(** One step of the position path: it subscribes for [k] exactly when it
    adds [k] to the subscription record, and the record only grows. *)
Lemma step_position_subscribes k event s :
  subscribed s ⊆ subscribed (dispatch event s).1.2
  ∧ (if is_position_event k event
     then length (subscribes_of (dispatch event s).2) else 0%nat)
    = if decide (k ∈ subscribed s) then 0%nat
      else if decide (k ∈ subscribed (dispatch event s).1.2) then 1%nat else 0%nat.
Proof.
  destruct (dispatch_subscription event s) as [_ Hev].
  destruct event as [tick|contract|position| |log|data]; cbn [is_position_event].
  - destruct Hev as (_ & -> & _). split; [done|]. by repeat case_decide.
  - destruct Hev as (_ & _ & -> & _). split; [done|]. by repeat case_decide.
  - destruct Hev as (_ & _ & -> & ->).
    destruct (decide (position_vt_symbol position ∈ subscribed s)) as [Hin|Hnotin].
    + split; [done|]. destruct (bool_decide _); by repeat case_decide.
    + destruct (contracts s !! position_vt_symbol position) as [c|].
      * split; [set_solver|].
        destruct (bool_decide_reflect (position_vt_symbol position = k)) as [<-|Hne].
        -- rewrite decide_False by done. rewrite decide_True by set_solver. done.
        -- destruct (decide (k ∈ subscribed s)); [done|].
           rewrite decide_False; [done|].
           intros [?%elem_of_singleton|?]%elem_of_union; congruence.
      * split; [done|]. destruct (bool_decide _); by repeat case_decide.
  - destruct Hev as (_ & -> & _). split; [done|]. by repeat case_decide.
  - destruct Hev as (_ & -> & _). split; [done|]. by repeat case_decide.
  - destruct Hev as (_ & -> & _). split; [done|]. by repeat case_decide.
Qed.

Lemma run_events_trading_symbols events s :
  trading_symbols (run_events s events).2 = trading_symbols s.
Proof.
  revert events s.
  apply (run_events_ind (fun s _ s' => trading_symbols s' = trading_symbols s)).
  - done.
  - intros s event e _. apply dispatch_subscription.
  - intros s event steps s' _ ->. apply dispatch_subscription.
Qed.

Lemma contract_subscribes_run k events s :
  contract_subscribes k (run_events s events).1
  = if decide (k ∈ trading_symbols s)
    then contract_events k (run_events s events).1 else 0%nat.
Proof.
  revert events s.
  apply (run_events_ind (fun s steps _ =>
    contract_subscribes k steps
    = if decide (k ∈ trading_symbols s) then contract_events k steps else 0%nat)).
  - intros s. by case_decide.
  - intros s event e _. unfold contract_subscribes, contract_events, is_contract_step.
    cbn [count_subscribes count_steps step_event step_effects].
    rewrite step_contract_subscribes. case_decide; lia.
  - intros s event steps s' _ IH.
    unfold contract_subscribes, contract_events, is_contract_step in *.
    cbn [count_subscribes count_steps step_event step_effects].
    rewrite IH, step_contract_subscribes.
    destruct (dispatch_subscription event s) as [-> _].
    clear IH. case_decide; destruct (is_contract_event k event); lia.
Qed.

Lemma position_subscribes_run k events s :
  subscribed s ⊆ subscribed (run_events s events).2
  ∧ position_subscribes k (run_events s events).1
    = if decide (k ∈ subscribed s) then 0%nat
      else if decide (k ∈ subscribed (run_events s events).2) then 1%nat else 0%nat.
Proof.
  revert events s.
  pose (P := fun (s : StrategyEngine) (steps : list Step) (s' : StrategyEngine) =>
    subscribed s ⊆ subscribed s'
    ∧ position_subscribes k steps
      = if decide (k ∈ subscribed s) then 0%nat
        else if decide (k ∈ subscribed s') then 1%nat else 0%nat).
  apply (run_events_ind P); subst P; cbv beta.
  - intros s. split; [done|]. by repeat case_decide.
  - intros s event e _. unfold position_subscribes, is_position_step.
    cbn [count_subscribes step_event step_effects].
    destruct (step_position_subscribes k event s) as [Hsub ->].
    split; [done|]. repeat case_decide; lia.
  - intros s event steps s' _ [Hmono IH]. unfold position_subscribes, is_position_step in *.
    cbn [count_subscribes step_event step_effects].
    destruct (step_position_subscribes k event s) as [Hsub ->].
    rewrite IH. split; [set_solver|].
    repeat case_decide; set_solver || lia.
Qed.

(** ** The invariant of the subscription record *)

Lemma dispatch_invariant event s :
  subscribed_have_contract s →
  subscribed_have_contract (dispatch event s).1.2
  ∧ subscribed s ⊆ subscribed (dispatch event s).1.2
  ∧ dom (contracts s) ⊆ dom (contracts (dispatch event s).1.2)
  ∧ ∀ k, k ∈ subscribed (dispatch event s).1.2 →
         k ∈ subscribed s ∨ is_Some (contracts s !! k).
Proof.
  intros Hinv. unfold subscribed_have_contract in *.
  destruct (dispatch_subscription event s) as [_ Hev].
  destruct event as [tick|contract|position| |log|data].
  - destruct Hev as (-> & -> & _). naive_solver.
  - destruct Hev as (_ & -> & -> & _). repeat split.
    + intros k Hk. rewrite lookup_insert_is_Some. destruct (Hinv k Hk); eauto.
      destruct (decide (contract_vt_symbol contract = k)); eauto.
    + done.
    + rewrite dom_insert_L. set_solver.
    + eauto.
  - destruct Hev as (_ & -> & -> & _).
    destruct (decide (position_vt_symbol position ∈ subscribed s)); [naive_solver|].
    destruct (contracts s !! position_vt_symbol position) as [c|] eqn:Hc;
      [|naive_solver].
    repeat split.
    + intros k [->%elem_of_singleton|Hk]%elem_of_union; eauto.
    + set_solver.
    + done.
    + intros k [->%elem_of_singleton|Hk]%elem_of_union; eauto.
  - destruct Hev as (-> & -> & _). naive_solver.
  - destruct Hev as (-> & -> & _). naive_solver.
  - destruct Hev as (-> & -> & _). naive_solver.
Qed.

Lemma run_events_invariant events s :
  subscribed_have_contract s → subscribed_have_contract (run_events s events).2.
Proof.
  revert events s.
  apply (run_events_ind (fun s _ s' =>
    subscribed_have_contract s → subscribed_have_contract s')).
  - done.
  - intros s event e _ Hinv. by apply dispatch_invariant.
  - intros s event steps s' _ IH Hinv. by apply IH, dispatch_invariant.
Qed.

Lemma init_invariant vt_symbols : subscribed_have_contract (init vt_symbols).
Proof. intros k Hk. cbn in Hk. set_solver. Qed.

Lemma dispatch_contracts_keyed event s :
  contracts_keyed s → contracts_keyed (dispatch event s).1.2.
Proof.
  intros Hinv k c.
  destruct (dispatch_subscription event s) as [_ Hev].
  destruct event as [tick|contract|position| |log|data].
  - destruct Hev as (-> & _). apply Hinv.
  - destruct Hev as (_ & -> & _).
    destruct (decide (contract_vt_symbol contract = k)) as [<-|Hne].
    + rewrite lookup_insert_eq. by intros [= <-].
    + rewrite lookup_insert_ne by done. apply Hinv.
  - destruct Hev as (_ & -> & _). apply Hinv.
  - destruct Hev as (-> & _). apply Hinv.
  - destruct Hev as (-> & _). apply Hinv.
  - destruct Hev as (-> & _). apply Hinv.
Qed.

Lemma run_events_contracts_keyed vt_symbols events :
  contracts_keyed (run_events (init vt_symbols) events).2.
Proof.
  assert (contracts_keyed (init vt_symbols)) as Hinit by (intros k c; done).
  revert Hinit. generalize (init vt_symbols). revert events.
  apply (run_events_ind (fun s _ s' => contracts_keyed s → contracts_keyed s')).
  - done.
  - intros s event e _ Hinv. by apply dispatch_contracts_keyed.
  - intros s event steps s' _ IH Hinv. by apply IH, dispatch_contracts_keyed.
Qed.

(** ** Before the contract of an instrument is known *)

Lemma step_without_contract k event s :
  contracts s !! k = None →
  is_contract_event k event = false →
  contracts (dispatch event s).1.2 !! k = None
  ∧ (if is_position_event k event
     then length (subscribes_of (dispatch event s).2) else 0%nat) = 0%nat.
Proof.
  intros Hc Hev'.
  destruct (dispatch_subscription event s) as [_ Hev].
  destruct event as [tick|contract|position| |log|data];
    cbn [is_contract_event is_position_event] in *.
  - by destruct Hev as (-> & _).
  - destruct Hev as (_ & -> & _). split; [|done].
    apply bool_decide_eq_false in Hev'. by rewrite lookup_insert_ne.
  - destruct Hev as (_ & -> & _ & ->). split; [done|].
    destruct (bool_decide_reflect (position_vt_symbol position = k)) as [->|]; [|done].
    rewrite Hc. by destruct (decide _).
  - by destruct Hev as (-> & _).
  - by destruct Hev as (-> & _).
  - by destruct Hev as (-> & _).
Qed.

Lemma no_contract_no_subscribe k events s :
  contracts s !! k = None →
  Forall (fun event => is_contract_event k event = false) events →
  subscribes_for k (run_events s events).1 = 0%nat
  ∧ contracts (run_events s events).2 !! k = None.
Proof.
  revert s. induction events as [|event rest IH]; intros s Hc Hall; [done|].
  apply Forall_cons in Hall as [Hev Hrest].
  destruct (step_without_contract k event s Hc Hev) as [Hc1 Hpos].
  rewrite run_events_cons.
  unfold subscribes_for, contract_subscribes, position_subscribes,
    is_contract_step, is_position_step in *.
  destruct ((dispatch event s).1.1) as [[]|e] eqn:Hr;
    cbn [fst snd count_subscribes step_event step_effects]; rewrite Hev, Hpos.
  - destruct (IH _ Hc1 Hrest) as [IHn IHc]. split; [lia | done].
  - done.
Qed.

(** ** Invariants of the target states *)

Lemma target_insert_ne s m k k' v :
  k ≠ k' → target (with_trading_targets s (<[k := v]> m)) k' = default 0 (m !! k').
Proof. intros Hne. unfold target. simpl. by rewrite lookup_insert_ne. Qed.

Lemma next_target_flat_or_long t1 t2 t3 tgt :
  tgt = 0 ∨ tgt = 1 → next_target t1 t2 t3 tgt = 0 ∨ next_target t1 t2 t3 tgt = 1.
Proof.
  intros Htgt. unfold next_target.
  destruct (sells t1 t2 t3 tgt); [by left|].
  destruct (buys t1 t2 t3 tgt); [by right | done].
Qed.

(** What a handler does to the target states and the contracts: either it
    leaves the targets alone and keeps every contract, or it is a tick whose
    contract is stored and it moves the target of that instrument to
    [next_target]. *)
Lemma dispatch_targets event s :
  ((∀ k, target (dispatch event s).1.2 k = target s k)
   ∧ dom (contracts s) ⊆ dom (contracts (dispatch event s).1.2))
  ∨ ∃ tick t2 t3,
      is_Some (contracts s !! tick_vt_symbol tick)
      ∧ contracts (dispatch event s).1.2 = contracts s
      ∧ target (dispatch event s).1.2 (tick_vt_symbol tick)
        = next_target tick t2 t3 (target s (tick_vt_symbol tick))
      ∧ ∀ k, k ≠ tick_vt_symbol tick → target (dispatch event s).1.2 k = target s k.
Proof.
  destruct event as [tick|contract|position| |log|data]; cbn [dispatch].
  - destruct (decide (tick_vt_symbol tick ∈ trading_symbols s)) as [Hk|Hk].
    + destruct (short_or_last_two (history s (tick_vt_symbol tick)))
        as [Hshort | (pre & t3 & t2 & Hh)].
      * left. by rewrite process_tick_event_short.
      * destruct (contracts s !! tick_vt_symbol tick) as [c|] eqn:Hc.
        -- right. exists tick, t2, t3.
           rewrite (process_tick_event_eval tick s pre t3 t2 c Hk Hh Hc). cbn [fst snd].
           split; [eauto|]. split; [done|]. split; [apply target_insert|].
           intros k Hne. by rewrite target_insert_ne.
        -- left. by rewrite (process_tick_event_no_contract tick s pre t3 t2 Hk Hh Hc).
    + left. by rewrite process_tick_event_other.
  - left. rewrite process_contract_event_eq. cbn. split; [done|].
    rewrite dom_insert_L. set_solver.
  - left. rewrite process_position_event_eq. cbn.
    destruct (decide _); [done|].
    by destruct (contracts s !! position_vt_symbol position).
  - by left.
  - by left.
  - by left.
Qed.

Lemma dispatch_targets_flat_or_long event s :
  targets_flat_or_long s → targets_flat_or_long (dispatch event s).1.2.
Proof.
  intros Hinv k.
  destruct (dispatch_targets event s) as [[Hsame _] | (tick & t2 & t3 & _ & _ & Hk & Hother)].
  - rewrite Hsame. apply Hinv.
  - destruct (decide (k = tick_vt_symbol tick)) as [->|Hne].
    + rewrite Hk. apply next_target_flat_or_long, Hinv.
    + rewrite Hother by done. apply Hinv.
Qed.

Lemma dispatch_long_have_contract event s :
  long_have_contract s → long_have_contract (dispatch event s).1.2.
Proof.
  intros Hinv k Hlong.
  destruct (dispatch_targets event s)
    as [[Hsame Hdom] | (tick & t2 & t3 & Hc & Hcs & Hk & Hother)].
  - rewrite Hsame in Hlong. apply elem_of_dom, Hdom, elem_of_dom. by apply Hinv.
  - rewrite Hcs. destruct (decide (k = tick_vt_symbol tick)) as [->|Hne]; [done|].
    rewrite Hother in Hlong by done. by apply Hinv.
Qed.

Lemma run_events_targets events s :
  targets_flat_or_long s ∧ long_have_contract s →
  targets_flat_or_long (run_events s events).2
  ∧ long_have_contract (run_events s events).2.
Proof.
  revert events s.
  apply (run_events_ind (fun s _ s' =>
    targets_flat_or_long s ∧ long_have_contract s →
    targets_flat_or_long s' ∧ long_have_contract s')).
  - done.
  - intros s event e _ [H1 H2].
    split; [by apply dispatch_targets_flat_or_long | by apply dispatch_long_have_contract].
  - intros s event steps s' _ IH [H1 H2]. apply IH.
    split; [by apply dispatch_targets_flat_or_long | by apply dispatch_long_have_contract].
Qed.

Lemma init_targets vt_symbols :
  targets_flat_or_long (init vt_symbols) ∧ long_have_contract (init vt_symbols).
Proof. split; intros k; [by left | done]. Qed.

(** C4: in every state the engine reaches from its start, for a
    trading-set instrument, when a new tick makes the three most recent
    prices strictly falling ([tick] newest) and the target state is Long (1),
    the handler returns having sent exactly one sell-to-close limit order at
    the price of [tick] minus 10 with volume 1, then put one log event and
    the status event on the bus, and the target state is 0.  The contract
    the order needs is stored: the target only becomes Long through an
    entry, which read it. *)
Theorem long_exit_run vt_symbols events tick pre t3 t2 :
  tick_vt_symbol tick ∈ vt_symbols →
  history (run_events (init vt_symbols) events).2 (tick_vt_symbol tick)
  = pre ++ [t3; t2] →
  falling tick t2 t3 = true →
  target (run_events (init vt_symbols) events).2 (tick_vt_symbol tick) = 1 →
  ∃ contract s',
    contracts (run_events (init vt_symbols) events).2 !! tick_vt_symbol tick
    = Some contract
    ∧ process_tick_event tick (run_events (init vt_symbols) events).2
      = (Return tt, s',
         [gateway_send_order (sell_order contract tick);
          event_engine_put (EVENT_LOG (sell_log (tick_vt_symbol tick) tick));
          event_engine_put
            (EVENT_STRATEGY (status_data (tick_vt_symbol tick) tick 0))])
    ∧ target s' (tick_vt_symbol tick) = 0.
Proof.
  intros Hk Hh Hdown Hlong.
  destruct (run_events_targets events (init vt_symbols) (init_targets vt_symbols))
    as [_ Hcontract].
  destruct (Hcontract (tick_vt_symbol tick)) as [c Hc]; [by rewrite Hlong|].
  assert (tick_vt_symbol tick ∈ trading_symbols (run_events (init vt_symbols) events).2)
    as Hk'.
  { rewrite run_events_trading_symbols. cbn. by apply elem_of_list_to_set. }
  destruct (long_exit_with_contract _ tick pre t3 t2 c Hk' Hh Hc Hdown Hlong)
    as (s' & Hrun & Ht).
  by exists c, s'.
Qed.

(** C7: from any state and for any sequence of events, a sequence that
    repeats one position event any number of times included, the position
    handler subscribes at most once for an instrument, and not at all for an
    instrument already in the subscription record; the membership check
    gates the call: a position event of a recorded instrument makes no call,
    and a position event that subscribes found its instrument outside the
    record and leaves it inside. *)
Theorem position_path_at_most_once s events k :
  (position_subscribes k (run_events s events).1 ≤ 1)%nat
  ∧ (k ∈ subscribed s → position_subscribes k (run_events s events).1 = 0%nat)
  ∧ (∀ position,
       position_vt_symbol position ∈ subscribed s →
       (process_position_event position s).2 = [])
  ∧ (∀ position,
       subscribes_of (process_position_event position s).2 ≠ [] →
       (position_vt_symbol position ∉ subscribed s)
       ∧ position_vt_symbol position
         ∈ subscribed (process_position_event position s).1.2).
Proof.
  destruct (position_subscribes_run k events s) as [_ Hcount].
  split; [|split; [|split]].
  - rewrite Hcount. repeat case_decide; lia.
  - intros Hin. rewrite Hcount. by rewrite decide_True.
  - intros position Hin. rewrite process_position_event_eq. cbn.
    by rewrite decide_True.
  - intros position. rewrite process_position_event_eq. cbn.
    destruct (decide (position_vt_symbol position ∈ subscribed s)) as [|Hout]; [done|].
    destruct (contracts s !! position_vt_symbol position); [|done].
    intros _. split; [done|]. cbn. set_solver.
Qed.

(** C10: every handler preserves the invariant that each instrument of
    the subscription record has a stored contract; the record and the keys
    of the contracts map only grow, and an instrument enters the record only
    if its contract was stored when the handler started.  The timer handler
    leaves the state as it is. *)
Theorem subscribed_have_contract_preserved s event :
  subscribed_have_contract s →
  subscribed_have_contract (dispatch event s).1.2
  ∧ subscribed s ⊆ subscribed (dispatch event s).1.2
  ∧ dom (contracts s) ⊆ dom (contracts (dispatch event s).1.2)
  ∧ (∀ k, k ∈ subscribed (dispatch event s).1.2 →
          k ∈ subscribed s ∨ is_Some (contracts s !! k))
  ∧ (process_timer_event s).1.2 = s.
Proof.
  intros Hinv.
  destruct (dispatch_invariant event s Hinv) as (H1 & H2 & H3 & H4).
  repeat split; try done.
  unfold process_timer_event. by rewrite calculate_value_eq.
Qed.

(** * Further properties of the handlers *)

(** ** The ways through the tick handler *)
Lemma process_tick_event_cases tick s :
  ((tick_vt_symbol tick ∉ trading_symbols s)
   ∧ process_tick_event tick s
     = (Return tt, with_ticks s (<[tick_vt_symbol tick := tick]> (ticks s)), []))
  ∨ (tick_vt_symbol tick ∈ trading_symbols s
     ∧ (length (history s (tick_vt_symbol tick)) < 2)%nat
     ∧ process_tick_event tick s = (Return tt, tick_stored s tick, []))
  ∨ (tick_vt_symbol tick ∈ trading_symbols s
     ∧ (2 ≤ length (history s (tick_vt_symbol tick)))%nat
     ∧ contracts s !! tick_vt_symbol tick = None
     ∧ process_tick_event tick s
       = (Raise (KeyError (tick_vt_symbol tick)), tick_stored s tick, []))
  ∨ (tick_vt_symbol tick ∈ trading_symbols s
     ∧ ∃ pre t3 t2 c,
         history s (tick_vt_symbol tick) = pre ++ [t3; t2]
         ∧ contracts s !! tick_vt_symbol tick = Some c
         ∧ process_tick_event tick s
           = (Return tt,
              with_trading_targets (tick_stored s tick)
                (<[tick_vt_symbol tick :=
                     next_target tick t2 t3 (target s (tick_vt_symbol tick))]>
                   (trading_targets s)),
              trading_calls (tick_vt_symbol tick) c tick t2 t3
                (target s (tick_vt_symbol tick)))).
Proof.
  destruct (decide (tick_vt_symbol tick ∈ trading_symbols s)) as [Hk|Hk].
  - right.
    destruct (short_or_last_two (history s (tick_vt_symbol tick)))
      as [Hshort | (pre & t3 & t2 & Hh)].
    + left. split; [done|]. split; [done|]. by apply process_tick_event_short.
    + right. destruct (contracts s !! tick_vt_symbol tick) as [c|] eqn:Hc.
      * right. split; [done|]. exists pre, t3, t2, c.
        split; [done|]. split; [done|]. by apply (process_tick_event_eval tick s pre t3 t2 c).
      * left. split; [done|]. split.
        { rewrite Hh, length_app. simpl. lia. }
        split; [done|]. by apply (process_tick_event_no_contract tick s pre t3 t2).
  - left. split; [done|]. by apply process_tick_event_other.
Qed.

Lemma history_tick_stored_ne s tick k :
  k ≠ tick_vt_symbol tick → history (tick_stored s tick) k = history s k.
Proof. intros Hne. unfold history, tick_stored. simpl. by rewrite lookup_insert_ne. Qed.

(** What each handler does to the stored ticks and to the histories. *)
Lemma dispatch_history event s :
  match event with
  | EVENT_TICK tick =>
      ticks (dispatch event s).1.2 = <[tick_vt_symbol tick := tick]> (ticks s)
      ∧ ∀ k, history (dispatch event s).1.2 k
             = if decide (k = tick_vt_symbol tick ∧ k ∈ trading_symbols s)
               then history s k ++ [tick] else history s k
  | _ =>
      ticks (dispatch event s).1.2 = ticks s
      ∧ ∀ k, history (dispatch event s).1.2 k = history s k
  end.
Proof.
  destruct event as [tick|contract|position| |log|data]; cbn [dispatch].
  - destruct (process_tick_event_cases tick s)
      as [(Hk & ->) | [(Hk & _ & ->) | [(Hk & _ & _ & ->) | (Hk & pre & t3 & t2 & c & _ & _ & ->)]]];
      cbn [fst snd]; (split; [reflexivity|]); intros k.
    + rewrite decide_False; [reflexivity | by intros [-> ?]].
    + destruct (decide (k = tick_vt_symbol tick)) as [->|Hne].
      * rewrite decide_True by done. apply history_tick_stored.
      * rewrite decide_False by (by intros [? ?]). by apply history_tick_stored_ne.
    + destruct (decide (k = tick_vt_symbol tick)) as [->|Hne].
      * rewrite decide_True by done. apply history_tick_stored.
      * rewrite decide_False by (by intros [? ?]). by apply history_tick_stored_ne.
    + destruct (decide (k = tick_vt_symbol tick)) as [->|Hne].
      * rewrite decide_True by done. apply history_tick_stored.
      * rewrite decide_False by (by intros [? ?]). by apply history_tick_stored_ne.
  - rewrite process_contract_event_eq. done.
  - rewrite process_position_event_eq. cbn.
    destruct (decide _); [done|].
    by destruct (contracts s !! position_vt_symbol position).
  - done.
  - done.
  - done.
Qed.


(** ** Recording of ticks *)

(** X2: a tick is recorded before the rule is evaluated, so also when the
    handler raises: afterwards [ticks] maps the instrument of the tick to
    the tick, the history of a trading-set instrument has the tick appended
    (the history of any other instrument is untouched), and the ticks and
    histories stored for other instruments are unchanged. *)
Theorem tick_recorded tick s :
  ticks (process_tick_event tick s).1.2 !! tick_vt_symbol tick = Some tick
  ∧ (∀ k, k ≠ tick_vt_symbol tick →
          ticks (process_tick_event tick s).1.2 !! k = ticks s !! k
          ∧ history (process_tick_event tick s).1.2 k = history s k)
  ∧ history (process_tick_event tick s).1.2 (tick_vt_symbol tick)
    = (if decide (tick_vt_symbol tick ∈ trading_symbols s)
       then history s (tick_vt_symbol tick) ++ [tick]
       else history s (tick_vt_symbol tick)).
Proof.
  destruct (dispatch_history (EVENT_TICK tick) s) as [Hticks Hhist].
  cbn [dispatch] in *. rewrite Hticks. split; [apply lookup_insert_eq|]. split.
  - intros k Hne. rewrite lookup_insert_ne by done. split; [done|].
    rewrite Hhist. rewrite decide_False; [done | by intros [? ?]].
  - rewrite Hhist.
    destruct (decide (tick_vt_symbol tick ∈ trading_symbols s)).
    + by rewrite decide_True.
    + rewrite decide_False; [done | by intros [? ?]].
Qed.

Lemma step_history k event s :
  history (dispatch event s).1.2 k
  = history s k
    ++ (if decide (k ∈ trading_symbols s)
        then match event with
             | EVENT_TICK tick =>
                 if bool_decide (tick_vt_symbol tick = k) then [tick] else []
             | _ => []
             end
        else []).
Proof.
  pose proof (dispatch_history event s) as Hd.
  destruct event as [tick|contract|position| |log|data];
    destruct Hd as [_ ->]; try (destruct (decide _); by rewrite app_nil_r).
  destruct (decide (k ∈ trading_symbols s)) as [Hin|Hout].
  - destruct (bool_decide_reflect (tick_vt_symbol tick = k)) as [<-|Hne].
    + by rewrite decide_True.
    + rewrite decide_False; [by rewrite app_nil_r | by intros [-> ?]].
  - rewrite decide_False; [by rewrite app_nil_r | by intros [? ?]].
Qed.

(** X3: histories are append-only.  Over any run from any state the
    history of an instrument only gains a suffix, and for a trading-set
    instrument its length grows by the number of ticks of that instrument
    that were handled (also counting one that raised); the history of any
    other instrument keeps its length. *)
Theorem history_grows s events k :
  history s k `prefix_of` history (run_events s events).2 k
  ∧ length (history (run_events s events).2 k)
    = (length (history s k)
       + (if decide (k ∈ trading_symbols s)
          then count_steps (is_tick_step k) (run_events s events).1 else 0))%nat.
Proof.
  revert events s.
  pose (P := fun (s : StrategyEngine) (steps : list Step) (s' : StrategyEngine) =>
    history s k `prefix_of` history s' k
    ∧ length (history s' k)
      = (length (history s k)
         + (if decide (k ∈ trading_symbols s)
            then count_steps (is_tick_step k) steps else 0))%nat).
  assert (∀ s event,
    history s k `prefix_of` history (dispatch event s).1.2 k
    ∧ length (history (dispatch event s).1.2 k)
      = (length (history s k)
         + (if decide (k ∈ trading_symbols s)
            then (if is_tick_event k event then 1 else 0) else 0))%nat) as Hstep.
  { intros s event. rewrite step_history. split; [by apply prefix_app_r|].
    rewrite length_app. f_equal.
    destruct (decide (k ∈ trading_symbols s)); [|done].
    destruct event as [tick|contract|position| |log|data]; try done.
    cbn [is_tick_event]. by destruct (bool_decide _). }
  apply (run_events_ind P); subst P; cbv beta.
  - intros s. split; [done|]. destruct (decide (k ∈ trading_symbols s)); cbn; lia.
  - intros s event e _. destruct (Hstep s event) as [Hpre Hlen].
    split; [done|]. rewrite Hlen. unfold is_tick_step.
    destruct (decide (k ∈ trading_symbols s)); cbn [count_steps step_event];
      destruct (is_tick_event k event); lia.
  - intros s event steps s' _ [IHpre IHlen].
    destruct (Hstep s event) as [Hpre Hlen].
    split; [by etrans|]. rewrite IHlen, Hlen.
    destruct (dispatch_subscription event s) as [-> _]. unfold is_tick_step.
    destruct (decide (k ∈ trading_symbols s)); cbn [count_steps step_event];
      destruct (is_tick_event k event); lia.
Qed.

Lemma dispatch_history_invariants event s :
  history_keyed s ∧ history_trading_only s ∧ latest_is_last s →
  history_keyed (dispatch event s).1.2
  ∧ history_trading_only (dispatch event s).1.2
  ∧ latest_is_last (dispatch event s).1.2.
Proof.
  intros (Hkeyed & Honly & Hlast).
  destruct (dispatch_subscription event s) as [Htrading _].
  pose proof (dispatch_history event s) as Hd.
  split; [|split].
  - intros k tick. rewrite step_history. intros [Hold|Hnew]%elem_of_app.
    + by apply Hkeyed.
    + destruct (decide _); [|by apply elem_of_nil in Hnew].
      destruct event as [t|contract|position| |log|data];
        try by apply elem_of_nil in Hnew.
      destruct (bool_decide_reflect (tick_vt_symbol t = k)) as [<-|Hne];
        [|by apply elem_of_nil in Hnew].
      by apply list_elem_of_singleton in Hnew as ->.
  - intros k. rewrite Htrading. intros Hout. rewrite step_history.
    rewrite decide_False by done. rewrite app_nil_r. by apply Honly.
  - intros k. rewrite Htrading. intros Hin. rewrite step_history.
    rewrite decide_True by done.
    destruct event as [t|contract|position| |log|data];
      destruct Hd as [-> _]; try (rewrite app_nil_r; by apply Hlast).
    destruct (bool_decide_reflect (tick_vt_symbol t = k)) as [<-|Hne].
    + rewrite lookup_insert_eq. by rewrite last_snoc.
    + rewrite lookup_insert_ne by done. rewrite app_nil_r. by apply Hlast.
Qed.

Lemma run_history_invariants vt_symbols events :
  history_keyed (run_events (init vt_symbols) events).2
  ∧ history_trading_only (run_events (init vt_symbols) events).2
  ∧ latest_is_last (run_events (init vt_symbols) events).2.
Proof.
  assert (history_keyed (init vt_symbols) ∧ history_trading_only (init vt_symbols)
          ∧ latest_is_last (init vt_symbols)) as Hinit.
  { split; [|split]; intros k; try done.
    intros tick Hin. by apply elem_of_nil in Hin. }
  revert Hinit. generalize (init vt_symbols). revert events.
  apply (run_events_ind (fun s _ s' =>
    history_keyed s ∧ history_trading_only s ∧ latest_is_last s →
    history_keyed s' ∧ history_trading_only s' ∧ latest_is_last s')).
  - done.
  - intros s event e _ Hinv. by apply dispatch_history_invariants.
  - intros s event steps s' _ IH Hinv. by apply IH, dispatch_history_invariants.
Qed.


(** X4: in every state reached from the start, a history holds only ticks
    of its own instrument, instruments outside the trading set have no
    history, and for a trading-set instrument the stored latest tick is the
    last entry of its history (both absent before the first tick). *)
Theorem history_invariants vt_symbols events :
  history_keyed (run_events (init vt_symbols) events).2
  ∧ history_trading_only (run_events (init vt_symbols) events).2
  ∧ latest_is_last (run_events (init vt_symbols) events).2.
Proof. apply run_history_invariants. Qed.

(** ** Exceptions *)

Lemma dispatch_raises event s e :
  (dispatch event s).1.1 = Raise e
  ↔ ∃ tick,
      event = EVENT_TICK tick
      ∧ e = KeyError (tick_vt_symbol tick)
      ∧ tick_vt_symbol tick ∈ trading_symbols s
      ∧ (2 ≤ length (history s (tick_vt_symbol tick)))%nat
      ∧ contracts s !! tick_vt_symbol tick = None.
Proof.
  split.
  - destruct event as [tick|contract|position| |log|data]; cbn [dispatch].
    + destruct (process_tick_event_cases tick s)
        as [(Hk & ->) | [(Hk & _ & ->) | [(Hk & Hlen & Hc & ->)
            | (Hk & pre & t3 & t2 & c & _ & _ & ->)]]]; cbn [fst]; try done.
      intros [= <-]. by exists tick.
    + by rewrite process_contract_event_eq.
    + by rewrite process_position_event_eq.
    + done.
    + done.
    + done.
  - intros (tick & -> & -> & Hk & Hlen & Hc). cbn [dispatch].
    destruct (process_tick_event_cases tick s)
      as [(Hk' & _) | [(_ & Hlen' & _) | [(_ & _ & _ & ->)
          | (_ & pre & t3 & t2 & c & _ & Hc' & _)]]]; [done | lia | done | congruence].
Qed.

(** X5: the only exception a handler lets escape is the [KeyError] of
    [run_trading]: an event raises exactly when it is a tick of a
    trading-set instrument that already has at least two ticks of history
    and no stored contract, and the key of the error is that instrument.
    Contract, position and log events always return, [l[-i]] never fails. *)
Theorem dispatch_raises_iff event s e :
  (dispatch event s).1.1 = Raise e
  ↔ ∃ tick,
      event = EVENT_TICK tick
      ∧ e = KeyError (tick_vt_symbol tick)
      ∧ tick_vt_symbol tick ∈ trading_symbols s
      ∧ (2 ≤ length (history s (tick_vt_symbol tick)))%nat
      ∧ contracts s !! tick_vt_symbol tick = None.
Proof. apply dispatch_raises. Qed.

Lemma dispatch_trading_have_contract event s :
  trading_have_contract s → trading_have_contract (dispatch event s).1.2.
Proof.
  intros Hinv k. destruct (dispatch_subscription event s) as [-> Hev]. intros Hk.
  destruct event as [tick|contract|position| |log|data].
  - destruct Hev as (-> & _). by apply Hinv.
  - destruct Hev as (_ & -> & _). rewrite lookup_insert_is_Some.
    destruct (decide (contract_vt_symbol contract = k)); [by left | right].
    split; [done | by apply Hinv].
  - destruct Hev as (_ & -> & _). by apply Hinv.
  - destruct Hev as (-> & _). by apply Hinv.
  - destruct Hev as (-> & _). by apply Hinv.
  - destruct Hev as (-> & _). by apply Hinv.
Qed.

(** X6: once every trading-set instrument has a stored contract, no event
    sequence can stop the engine: every event is handled, every handler
    returns, and the condition still holds at the end. *)
Theorem run_completes s events :
  trading_have_contract s →
  step_event <$> (run_events s events).1 = events
  ∧ Forall (fun st => step_result st = Return tt) (run_events s events).1
  ∧ trading_have_contract (run_events s events).2.
Proof.
  revert s. induction events as [|event rest IH]; intros s Hinv; [done|].
  rewrite run_events_cons.
  destruct ((dispatch event s).1.1) as [[]|e] eqn:Hr.
  - destruct (IH _ (dispatch_trading_have_contract event s Hinv)) as (Hev & Hall & Hinv').
    cbn [fst snd fmap list_fmap step_event]. split; [|split].
    + f_equal. exact Hev.
    + by apply Forall_cons.
    + done.
  - apply dispatch_raises in Hr as (tick & _ & _ & Hk & _ & Hc).
    destruct (Hinv _ Hk) as [c Hc']. congruence.
Qed.

(** ** Orders *)

Lemma buys_not_sells t1 t2 t3 tgt :
  buys t1 t2 t3 tgt = true → sells t1 t2 t3 tgt = false.
Proof.
  unfold buys, sells. intros [Hup _]%andb_true_iff.
  by rewrite (rising_not_falling _ _ _ Hup).
Qed.

Lemma orders_of_calls k c t1 t2 t3 tgt :
  orders_of (trading_calls k c t1 t2 t3 tgt)
  = (if buys t1 t2 t3 tgt then [buy_order c t1] else [])
    ++ (if sells t1 t2 t3 tgt then [sell_order c t1] else []).
Proof. unfold trading_calls. by destruct (buys _ _ _ _), (sells _ _ _ _). Qed.

(** X7: an event sends at most one order, so a tick never buys and sells
    at once; only a tick of a trading-set instrument with a stored contract
    sends one, and the order is the buy order built from that contract and
    that tick with the target read as [0], or the sell order with the target
    read as positive. *)
Theorem orders_of_event event s :
  (length (orders_of (dispatch event s).2) ≤ 1)%nat
  ∧ Forall
      (fun order =>
         ∃ tick c,
           event = EVENT_TICK tick
           ∧ tick_vt_symbol tick ∈ trading_symbols s
           ∧ contracts s !! tick_vt_symbol tick = Some c
           ∧ ((order = buy_order c tick ∧ target s (tick_vt_symbol tick) = 0)
              ∨ (order = sell_order c tick ∧ 0 < target s (tick_vt_symbol tick))))
      (orders_of (dispatch event s).2).
Proof.
  destruct event as [tick|contract|position| |log|data]; cbn [dispatch].
  - destruct (process_tick_event_cases tick s)
      as [(Hk & ->) | [(Hk & _ & ->) | [(Hk & _ & _ & ->)
          | (Hk & pre & t3 & t2 & c & _ & Hc & ->)]]]; cbn [fst snd];
      try (split; [cbn; lia | by apply Forall_nil_2]).
    rewrite orders_of_calls.
    destruct (buys tick t2 t3 (target s (tick_vt_symbol tick))) eqn:Hb.
    + rewrite (buys_not_sells _ _ _ _ Hb). split; [cbn; lia|].
      apply Forall_singleton. exists tick, c. repeat split; try done.
      left. split; [done|]. unfold buys in Hb.
      apply andb_true_iff in Hb as [_ Hz]. by apply Z.eqb_eq.
    + destruct (sells tick t2 t3 (target s (tick_vt_symbol tick))) eqn:Hs.
      * split; [cbn; lia|]. apply Forall_singleton. exists tick, c.
        repeat split; try done. right. split; [done|].
        unfold sells in Hs. rewrite Hb in Hs.
        apply andb_true_iff in Hs as [_ Hp]. by apply Z.ltb_lt.
      * split; [cbn; lia | by apply Forall_nil_2].
  - rewrite process_contract_event_eq. cbn.
    destruct (decide _); (split; [cbn; lia | by apply Forall_nil_2]).
  - rewrite process_position_event_eq. cbn.
    destruct (decide _); [split; [cbn; lia | by apply Forall_nil_2]|].
    destruct (contracts s !! position_vt_symbol position);
      (split; [cbn; lia | by apply Forall_nil_2]).
  - split; [cbn; lia | by apply Forall_nil_2].
  - split; [cbn; lia | by apply Forall_nil_2].
  - split; [cbn; lia | by apply Forall_nil_2].
Qed.


Lemma count_orders_cons sel k event out r steps :
  count_orders sel k
    ({| step_event := event; step_effects := out; step_result := r |} :: steps)
  = ((if is_tick_event k event then length (List.filter sel (orders_of out)) else 0)
     + count_orders sel k steps)%nat.
Proof. reflexivity. Qed.

(** One step of the order balance of instrument [k]. *)
Lemma step_order_balance k event s :
  target s k = 0 ∨ target s k = 1 →
  Z.of_nat (if is_tick_event k event
            then length (List.filter is_buy (orders_of (dispatch event s).2)) else 0%nat)
  - Z.of_nat (if is_tick_event k event
              then length (List.filter is_sell (orders_of (dispatch event s).2)) else 0%nat)
  = target (dispatch event s).1.2 k - target s k.
Proof.
  intros Htgt.
  destruct event as [tick|contract|position| |log|data];
    cbn [dispatch is_tick_event].
  - destruct (process_tick_event_cases tick s)
      as [(Hk & ->) | [(Hk & _ & ->) | [(Hk & _ & _ & ->)
          | (Hk & pre & t3 & t2 & c & _ & Hc & ->)]]]; cbn [fst snd];
      try (change (target _ k) with (target s k); destruct (bool_decide _); cbn; lia).
    destruct (bool_decide_reflect (tick_vt_symbol tick = k)) as [<-|Hne].
    + rewrite target_insert, orders_of_calls. unfold next_target.
      destruct (buys tick t2 t3 (target s (tick_vt_symbol tick))) eqn:Hb.
      * rewrite (buys_not_sells _ _ _ _ Hb). cbn.
        unfold buys in Hb. apply andb_true_iff in Hb as [_ Hz%Z.eqb_eq]. lia.
      * destruct (sells tick t2 t3 (target s (tick_vt_symbol tick))) eqn:Hs; cbn; [|lia].
        unfold sells in Hs. rewrite Hb in Hs.
        apply andb_true_iff in Hs as [_ Hp%Z.ltb_lt]. lia.
    + rewrite target_insert_ne by done. change (default 0 _) with (target s k). lia.
  - rewrite process_contract_event_eq. cbn. change (target _ k) with (target s k). lia.
  - rewrite process_position_event_eq. cbn.
    destruct (decide _); [change (target _ k) with (target s k); lia|].
    destruct (contracts s !! position_vt_symbol position);
      change (target _ k) with (target s k); lia.
  - cbn. lia.
  - cbn. lia.
  - cbn. lia.
Qed.

(** X8: in every run from the start and for every instrument, the number
    of buy orders sent equals the number of sell orders sent plus the target
    state at the end, which is 0 or 1: the engine never opens a second unit
    and never sells what it did not buy. *)
Theorem order_balance vt_symbols events k :
  Z.of_nat (count_orders is_buy k (run_events (init vt_symbols) events).1)
  = Z.of_nat (count_orders is_sell k (run_events (init vt_symbols) events).1)
    + target (run_events (init vt_symbols) events).2 k
  ∧ (target (run_events (init vt_symbols) events).2 k = 0
     ∨ target (run_events (init vt_symbols) events).2 k = 1).
Proof.
  assert (targets_flat_or_long (init vt_symbols)) as Hinit by apply init_targets.
  assert (target (init vt_symbols) k = 0) as Hzero by reflexivity.
  assert (∀ events s,
    targets_flat_or_long s →
    Z.of_nat (count_orders is_buy k (run_events s events).1)
    - Z.of_nat (count_orders is_sell k (run_events s events).1)
    = target (run_events s events).2 k - target s k
    ∧ targets_flat_or_long (run_events s events).2) as Hrun.
  { apply (run_events_ind (fun s steps s' =>
      targets_flat_or_long s →
      Z.of_nat (count_orders is_buy k steps) - Z.of_nat (count_orders is_sell k steps)
      = target s' k - target s k
      ∧ targets_flat_or_long s')).
    - intros s Hinv. split; [cbn; lia | done].
    - intros s event e _ Hinv. rewrite !count_orders_cons. cbn [count_orders].
      pose proof (step_order_balance k event s (Hinv k)) as Hstep.
      split; [lia | by apply dispatch_targets_flat_or_long].
    - intros s event steps s' _ IH Hinv.
      destruct (IH (dispatch_targets_flat_or_long event s Hinv)) as [IHbal IHinv].
      rewrite !count_orders_cons.
      pose proof (step_order_balance k event s (Hinv k)) as Hstep.
      split; [lia | done]. }
  destruct (Hrun events (init vt_symbols) Hinit) as [Hbal Hinv].
  split; [lia | apply Hinv].
Qed.


(** X9: the calls of a tick event.  Each order comes with exactly one log
    event; a tick never subscribes and never prints; it puts at most one
    status event on the bus, and exactly one precisely when the instrument
    is in the trading set, had at least two ticks of history before this
    one, and has a stored contract. *)
Theorem tick_calls tick s :
  length (logs_of (process_tick_event tick s).2)
  = length (orders_of (process_tick_event tick s).2)
  ∧ subscribes_of (process_tick_event tick s).2 = []
  ∧ prints_of (process_tick_event tick s).2 = []
  ∧ (length (status_of (process_tick_event tick s).2) ≤ 1)%nat
  ∧ (length (status_of (process_tick_event tick s).2) = 1%nat
     ↔ tick_vt_symbol tick ∈ trading_symbols s
       ∧ (2 ≤ length (history s (tick_vt_symbol tick)))%nat
       ∧ is_Some (contracts s !! tick_vt_symbol tick)).
Proof.
  destruct (process_tick_event_cases tick s)
    as [(Hk & ->) | [(Hk & Hlen & ->) | [(Hk & Hlen & Hc & ->)
        | (Hk & pre & t3 & t2 & c & Hh & Hc & ->)]]]; cbn [fst snd].
  - repeat split; try done; try (cbn; lia). by intros (? & _).
  - repeat split; try done; try (cbn; lia).
  - repeat split; try done; try (cbn; lia). rewrite Hc. by intros (_ & _ & [? ?]).
  - assert (2 ≤ length (history s (tick_vt_symbol tick)))%nat as Hlen
      by (rewrite Hh, length_app; cbn; lia).
    unfold trading_calls.
    destruct (buys tick t2 t3 (target s (tick_vt_symbol tick))),
      (sells tick t2 t3 (target s (tick_vt_symbol tick))); cbn;
      repeat split; try done; try lia; by rewrite Hc.
Qed.

(** ** Events put on the bus *)

Lemma puts_of_calls k c t1 t2 t3 tgt :
  puts_of (trading_calls k c t1 t2 t3 tgt)
  = (if buys t1 t2 t3 tgt then [EVENT_LOG (buy_log k t1)] else [])
    ++ (if sells t1 t2 t3 tgt then [EVENT_LOG (sell_log k t1)] else [])
    ++ [EVENT_STRATEGY (status_data k t1 (next_target t1 t2 t3 tgt))].
Proof. unfold trading_calls. by destruct (buys _ _ _ _), (sells _ _ _ _). Qed.

(** X10: what the engine puts on the bus cannot loop back into trading.
    Every event a handler puts is a log event of gateway [STRATEGY] or a
    strategy event; delivered back to the engine in any state, the log event
    only prints its message and the strategy event does nothing, and neither
    changes the state. *)
Theorem puts_are_inert event s :
  Forall
    (fun put =>
       (∃ log, put = EVENT_LOG log ∧ log_gateway_name log = "STRATEGY"%string
               ∧ ∀ s', dispatch put s' = (Return tt, s', [print (log_msg log)]))
       ∨ (∃ data, put = EVENT_STRATEGY data
                  ∧ ∀ s', dispatch put s' = (Return tt, s', [])))
    (puts_of (dispatch event s).2).
Proof.
  destruct event as [tick|contract|position| |log|data]; cbn [dispatch].
  - destruct (process_tick_event_cases tick s)
      as [(Hk & ->) | [(Hk & _ & ->) | [(Hk & _ & _ & ->)
          | (Hk & pre & t3 & t2 & c & _ & Hc & ->)]]]; cbn [fst snd];
      try by apply Forall_nil_2.
    rewrite puts_of_calls. repeat apply Forall_app_2.
    + destruct (buys _ _ _ _); [|by apply Forall_nil_2].
      apply Forall_singleton. left. by eexists.
    + destruct (sells _ _ _ _); [|by apply Forall_nil_2].
      apply Forall_singleton. left. by eexists.
    + apply Forall_singleton. right. by eexists.
  - rewrite process_contract_event_eq. cbn. destruct (decide _); by apply Forall_nil_2.
  - rewrite process_position_event_eq. cbn.
    destruct (decide _); [by apply Forall_nil_2|].
    destruct (contracts s !! position_vt_symbol position); by apply Forall_nil_2.
  - by apply Forall_nil_2.
  - by apply Forall_nil_2.
  - by apply Forall_nil_2.
Qed.

(** ** Subscribe requests *)

(** X11: what is subscribed.  In every state reached from the start, a
    contract event subscribes only with the symbol and exchange of its own
    contract and only for a trading-set instrument; a position event
    subscribes only with the symbol and exchange of the contract stored for
    the instrument of the position, whose own key is that instrument, and
    only when the instrument is not yet in the subscription record; no other
    event subscribes. *)
Theorem subscribe_requests vt_symbols events event :
  Forall
    (fun req =>
       match event with
       | EVENT_CONTRACT contract =>
           req = subscribe_request contract
           ∧ contract_vt_symbol contract ∈ vt_symbols
       | EVENT_POSITION position =>
           ∃ contract,
             req = subscribe_request contract
             ∧ contract_vt_symbol contract = position_vt_symbol position
             ∧ contracts (run_events (init vt_symbols) events).2
                 !! position_vt_symbol position = Some contract
             ∧ position_vt_symbol position
                 ∉ subscribed (run_events (init vt_symbols) events).2
       | _ => False
       end)
    (subscribes_of (dispatch event (run_events (init vt_symbols) events).2).2).
Proof.
  pose proof (run_events_contracts_keyed vt_symbols events) as Hkeyed.
  pose proof (run_events_trading_symbols events (init vt_symbols)) as Htrading.
  set (s := (run_events (init vt_symbols) events).2) in *.
  destruct (dispatch_subscription event s) as [_ Hev].
  destruct event as [tick|contract|position| |log|data].
  - destruct Hev as (_ & _ & ->). by apply Forall_nil_2.
  - destruct Hev as (_ & _ & _ & ->).
    destruct (decide (contract_vt_symbol contract ∈ trading_symbols s)) as [Hin|];
      [|by apply Forall_nil_2].
    apply Forall_singleton. split; [done|].
    rewrite Htrading in Hin. cbn in Hin. by apply elem_of_list_to_set in Hin.
  - destruct Hev as (_ & _ & _ & ->).
    destruct (decide (position_vt_symbol position ∈ subscribed s)) as [|Hout];
      [by apply Forall_nil_2|].
    destruct (contracts s !! position_vt_symbol position) as [c|] eqn:Hc;
      [|by apply Forall_nil_2].
    apply Forall_singleton. exists c. repeat split; try done. by apply Hkeyed.
  - destruct Hev as (_ & _ & ->). by apply Forall_nil_2.
  - destruct Hev as (_ & _ & ->). by apply Forall_nil_2.
  - destruct Hev as (_ & _ & ->). by apply Forall_nil_2.
Qed.

(** ** The positions dictionary *)

Lemma dict_setitem_keys {A} k (v : A) d :
  (dict_setitem k v d).*1 = if decide (k ∈ d.*1) then d.*1 else d.*1 ++ [k].
Proof.
  induction d as [|[k' v'] d IH]; [done|]. cbn [dict_setitem].
  destruct (decide (k' = k)) as [->|Hne]; cbn [fmap list_fmap fst].
  - rewrite decide_True; [done | apply list_elem_of_here].
  - rewrite IH. destruct (decide (k ∈ d.*1)) as [Hin|Hout].
    + rewrite decide_True; [done | by apply list_elem_of_further].
    + rewrite decide_False; [done|].
      intros [?|?]%elem_of_cons; [congruence | done].
Qed.

Lemma dict_setitem_elem {A} k (v : A) d : (k, v) ∈ dict_setitem k v d.
Proof.
  induction d as [|[k' v'] d IH]; cbn [dict_setitem]; [apply list_elem_of_here|].
  destruct (decide (k' = k)); [apply list_elem_of_here | by apply list_elem_of_further].
Qed.

Lemma dict_setitem_other {A} k (v : A) d k' v' :
  k' ≠ k → (k', v') ∈ dict_setitem k v d ↔ (k', v') ∈ d.
Proof.
  intros Hne. induction d as [|[k0 v0] d IH]; cbn [dict_setitem].
  - rewrite list_elem_of_singleton. split; [congruence | by intros ?%elem_of_nil].
  - destruct (decide (k0 = k)) as [->|Hne0].
    + rewrite !elem_of_cons. split; (intros [?|?]; [congruence | by right]).
    + rewrite !elem_of_cons, IH. done.
Qed.

Lemma dict_setitem_NoDup {A} k (v : A) d :
  NoDup d.*1 → NoDup (dict_setitem k v d).*1.
Proof.
  intros Hd. rewrite dict_setitem_keys. destruct (decide (k ∈ d.*1)); [done|].
  apply NoDup_app. split; [done|]. split; [|apply NoDup_singleton].
  intros x Hx ->%list_elem_of_singleton. done.
Qed.

Lemma NoDup_keys_functional {A} (d : list (string * A)) k v v' :
  NoDup d.*1 → (k, v) ∈ d → (k, v') ∈ d → v = v'.
Proof.
  induction d as [|[k0 v0] d IH]; cbn [fmap list_fmap fst];
    [by intros _ ?%elem_of_nil|].
  intros [Hk0 Hd]%NoDup_cons [Heq|Hv]%elem_of_cons [Heq'|Hv']%elem_of_cons.
  - congruence.
  - injection Heq as -> ->. destruct Hk0.
    apply list_elem_of_fmap. by exists (k0, v').
  - injection Heq' as -> ->. destruct Hk0.
    apply list_elem_of_fmap. by exists (k0, v).
  - by apply IH.
Qed.

Lemma dispatch_positions event s :
  positions (dispatch event s).1.2
  = match event with
    | EVENT_POSITION position =>
        dict_setitem (position_vt_positionid position) position (positions s)
    | _ => positions s
    end.
Proof.
  destruct event as [tick|contract|position| |log|data]; cbn [dispatch]; try done.
  - by destruct (process_tick_event_cases tick s)
      as [(Hk & ->) | [(Hk & _ & ->) | [(Hk & _ & _ & ->)
          | (Hk & pre & t3 & t2 & c & _ & Hc & ->)]]].
  - by rewrite process_contract_event_eq.
  - rewrite process_position_event_eq. cbn.
    destruct (decide _); [done|].
    by destruct (contracts s !! position_vt_symbol position).
Qed.

(** X13: [self.positions[id] = position] is last-write-wins and keeps the
    insertion order.  After a position event the keys are the old keys, with
    the new identifier appended if it was absent; the position is stored
    under its identifier; entries of other identifiers are unchanged; and if
    identifiers were distinct before they remain distinct and the identifier
    maps to this position only. *)
Theorem position_stored s position :
  (positions (process_position_event position s).1.2).*1
  = (if decide (position_vt_positionid position ∈ (positions s).*1)
     then (positions s).*1
     else (positions s).*1 ++ [position_vt_positionid position])
  ∧ (position_vt_positionid position, position)
    ∈ positions (process_position_event position s).1.2
  ∧ (∀ id p, id ≠ position_vt_positionid position →
       (id, p) ∈ positions (process_position_event position s).1.2
       ↔ (id, p) ∈ positions s)
  ∧ (NoDup (positions s).*1 →
     NoDup (positions (process_position_event position s).1.2).*1
     ∧ ∀ p, (position_vt_positionid position, p)
            ∈ positions (process_position_event position s).1.2 →
            p = position).
Proof.
  pose proof (dispatch_positions (EVENT_POSITION position) s) as Hd.
  cbn [dispatch] in Hd. rewrite Hd.
  split; [apply dict_setitem_keys|]. split; [apply dict_setitem_elem|].
  split; [intros id p Hne; by apply dict_setitem_other|].
  intros Hnodup. split; [by apply dict_setitem_NoDup|].
  intros p Hp. symmetry.
  eapply NoDup_keys_functional;
    [by apply dict_setitem_NoDup | apply dict_setitem_elem | exact Hp].
Qed.

Lemma length_omap_le {A B} (f : A → option B) (l : list A) :
  (length (omap f l) ≤ length l)%nat.
Proof.
  induction l as [|x l IH]; [done|]. cbn [omap list_omap].
  destruct (f x); cbn [length]; lia.
Qed.

(** X14: in every state reached from the start the stored positions have
    distinct identifiers, the valuation prints at most one line per stored
    position, and there are at most as many stored positions as position
    events handled. *)
Theorem positions_distinct vt_symbols events :
  NoDup (positions (run_events (init vt_symbols) events).2).*1
  ∧ (length (valuation_report (run_events (init vt_symbols) events).2)
     ≤ length (positions (run_events (init vt_symbols) events).2))%nat
  ∧ (length (positions (run_events (init vt_symbols) events).2)
     ≤ count_steps
         (fun st => match step_event st with EVENT_POSITION _ => true | _ => false end)
         (run_events (init vt_symbols) events).1)%nat.
Proof.
  assert (∀ events s,
    NoDup (positions s).*1 →
    NoDup (positions (run_events s events).2).*1
    ∧ (length (positions (run_events s events).2)
       ≤ length (positions s)
         + count_steps
             (fun st => match step_event st with EVENT_POSITION _ => true | _ => false end)
             (run_events s events).1)%nat) as Hrun.
  { assert (∀ s event,
      NoDup (positions s).*1 →
      NoDup (positions (dispatch event s).1.2).*1
      ∧ (length (positions (dispatch event s).1.2)
         ≤ length (positions s)
           + (match event with EVENT_POSITION _ => 1 | _ => 0 end))%nat) as Hstep.
    { intros s event Hd. rewrite dispatch_positions.
      destruct event as [tick|contract|position| |log|data];
        try (split; [done | lia]).
      split; [by apply dict_setitem_NoDup|].
      rewrite <- (length_fmap fst (dict_setitem _ _ _)), dict_setitem_keys.
      destruct (decide _); rewrite ?length_app, !length_fmap; cbn; lia. }
    apply (run_events_ind (fun s steps s' =>
      NoDup (positions s).*1 →
      NoDup (positions s').*1
      ∧ (length (positions s')
         ≤ length (positions s)
           + count_steps
               (fun st => match step_event st with EVENT_POSITION _ => true | _ => false end)
               steps)%nat)).
    - intros s Hd. split; [done | cbn; lia].
    - intros s event e _ Hd. destruct (Hstep s event Hd) as [Hn Hl].
      split; [done|]. cbn [count_steps step_event].
      destruct event; lia.
    - intros s event steps s' _ IH Hd. destruct (Hstep s event Hd) as [Hn Hl].
      destruct (IH Hn) as [IHn IHl]. split; [done|]. cbn [count_steps step_event].
      destruct event; lia. }
  destruct (Hrun events (init vt_symbols)) as [Hn Hl]; [apply NoDup_nil_2|].
  split; [done|]. split; [|cbn in Hl; lia].
  unfold valuation_report.
  etrans; [apply length_omap_le | by rewrite length_fmap].
Qed.

(** ** Instruments outside the trading set *)

Lemma dispatch_target_outside k event s :
  k ∉ trading_symbols s → target (dispatch event s).1.2 k = target s k.
Proof.
  intros Hout.
  destruct event as [tick|contract|position| |log|data]; cbn [dispatch]; try done.
  - destruct (process_tick_event_cases tick s)
      as [(Hk & ->) | [(Hk & _ & ->) | [(Hk & _ & _ & ->)
          | (Hk & pre & t3 & t2 & c & _ & Hc & ->)]]]; cbn [fst snd]; try done.
    apply target_insert_ne. by intros <-.
  - by rewrite process_contract_event_eq.
  - rewrite process_position_event_eq. cbn.
    destruct (decide _); [done|].
    by destruct (contracts s !! position_vt_symbol position).
Qed.

(** X15: instruments outside the trading set are never traded.  In every
    run from the start a tick of such an instrument makes no call and
    returns, and at the end such an instrument has no history and target
    state 0. *)
Theorem outside_trading_set_inert vt_symbols events :
  Forall
    (fun st =>
       ∀ tick,
         step_event st = EVENT_TICK tick →
         tick_vt_symbol tick ∉ vt_symbols →
         step_effects st = [] ∧ step_result st = Return tt)
    (run_events (init vt_symbols) events).1
  ∧ ∀ k, k ∉ vt_symbols →
         history (run_events (init vt_symbols) events).2 k = []
         ∧ target (run_events (init vt_symbols) events).2 k = 0.
Proof.
  assert (∀ events s,
    Forall
      (fun st =>
         ∀ tick,
           step_event st = EVENT_TICK tick →
           tick_vt_symbol tick ∉ trading_symbols s →
           step_effects st = [] ∧ step_result st = Return tt)
      (run_events s events).1
    ∧ ∀ k, k ∉ trading_symbols s → target (run_events s events).2 k = target s k)
    as Hrun.
  { assert (∀ s event tick,
      event = EVENT_TICK tick → tick_vt_symbol tick ∉ trading_symbols s →
      (dispatch event s).2 = [] ∧ (dispatch event s).1.1 = Return tt) as Hstep.
    { intros s event tick -> Hout. cbn [dispatch].
      by rewrite process_tick_event_other. }
    apply (run_events_ind (fun s steps s' =>
      Forall
        (fun st =>
           ∀ tick,
             step_event st = EVENT_TICK tick →
             tick_vt_symbol tick ∉ trading_symbols s →
             step_effects st = [] ∧ step_result st = Return tt)
        steps
      ∧ ∀ k, k ∉ trading_symbols s → target s' k = target s k)).
    - intros s. split; [apply Forall_nil_2 | done].
    - intros s event e He. split; [|intros k Hk; by apply dispatch_target_outside].
      apply Forall_singleton. cbn [step_event step_effects step_result].
      intros tick Hev Hout. destruct (Hstep s event tick Hev Hout) as [_ Hr]. congruence.
    - intros s event steps s' Hr [IHall IHt].
      destruct (dispatch_subscription event s) as [Htr _]. rewrite Htr in IHall, IHt.
      split.
      + apply Forall_cons. split; [|done]. cbn [step_event step_effects step_result].
        intros tick Hev Hout. by destruct (Hstep s event tick Hev Hout).
      + intros k Hk. rewrite IHt by done. by apply dispatch_target_outside. }
  destruct (Hrun events (init vt_symbols)) as [Hall Ht].
  assert (∀ k, k ∉ vt_symbols → k ∉ trading_symbols (init vt_symbols)) as Hnot.
  { intros k Hk. cbn. by rewrite elem_of_list_to_set. }
  split.
  - eapply Forall_impl; [exact Hall|]. intros st Hst tick Hev Hout. by apply (Hst tick), Hnot.
  - intros k Hk. split.
    + destruct (run_history_invariants vt_symbols events) as (_ & Honly & _).
      apply Honly. rewrite run_events_trading_symbols. by apply Hnot.
    + by rewrite Ht by (by apply Hnot).
Qed.

(** ** Construction *)

Lemma load_setting_eq vt_symbols s :
  load_setting vt_symbols s
  = (Return tt,
     {| ticks := ticks s; contracts := contracts s; positions := positions s;
        subscribed := subscribed s; tick_history := tick_history s;
        trading_symbols := list_to_set vt_symbols ∪ trading_symbols s;
        trading_targets := trading_targets s |},
     []).
Proof.
  revert s. induction vt_symbols as [|code rest IH]; intros s.
  - cbn. rewrite (left_id_L ∅ (∪)). by destruct s.
  - cbn [load_setting]. erewrite bind_Return by reflexivity.
    rewrite IH. cbn. do 2 f_equal. f_equal.
    by rewrite (assoc_L (∪)), (comm_L (∪) (list_to_set rest)).
Qed.

(** X1: construction.  [load_setting] run on the engine that [__init__]
    built never fails, makes no call, and yields the start state [init]: the
    trading set holds exactly the configured codes (repeats and order do not
    matter), everything else is empty; loading a list in two parts gives the
    same engine as loading it at once. *)
Theorem load_setting_init vt_symbols :
  load_setting vt_symbols new_engine = (Return tt, init vt_symbols, [])
  ∧ (∀ k, k ∈ trading_symbols (init vt_symbols) ↔ k ∈ vt_symbols)
  ∧ (∀ more, (load_setting (vt_symbols ++ more) new_engine).1.2
             = (load_setting more (init vt_symbols)).1.2).
Proof.
  split; [|split].
  - rewrite load_setting_eq. cbn. by rewrite (right_id_L ∅ (∪)).
  - intros k. cbn. apply elem_of_list_to_set.
  - intros more. rewrite !load_setting_eq. cbn. f_equal.
    by rewrite list_to_set_app_L, (right_id_L ∅ (∪)), (comm_L (∪)).
Qed.


(** ** Replacing a contract *)


(** * Subscriptions over a whole run *)

(** ** When the position path subscribes *)

Lemma position_subscribe_due_iff k known events :
  position_subscribe_due k known events = true
  ↔ ∃ pre position post,
      events = pre ++ EVENT_POSITION position :: post
      ∧ position_vt_symbol position = k
      ∧ (known = true ∨ Exists (fun event => is_contract_event k event = true) pre).
Proof.
  revert known. induction events as [|event rest IH]; intros known;
    cbn [position_subscribe_due].
  - split; [done|]. intros (pre & ? & ? & Heq & _). by destruct pre.
  - destruct (is_position_event k event && known) eqn:Hnow.
    + split; [intros _|done]. apply andb_true_iff in Hnow as [Hpos ->].
      destruct event as [|?|position| | |]; try done.
      exists [], position, rest. split; [done|].
      split; [by apply bool_decide_eq_true in Hpos | by left].
    + rewrite IH. split.
      * intros (pre & position & post & -> & Hk & Hknown).
        exists (event :: pre), position, post. split; [done|]. split; [done|].
        destruct Hknown as [Hknown|Hex].
        -- apply orb_true_iff in Hknown as [?|?]; [by left | right].
           by apply Exists_cons_hd.
        -- right. by apply Exists_cons_tl.
      * intros (pre & position & post & Heq & Hk & Hknown).
        destruct pre as [|event' pre]; cbn in Heq; injection Heq as -> ->.
        -- destruct Hknown as [->|Hex]; [|by apply Exists_nil in Hex].
           cbn in Hnow. by rewrite bool_decide_eq_true_2 in Hnow.
        -- exists pre, position, post. split; [done|]. split; [done|].
           destruct Hknown as [->|Hex]; [by left|].
           apply Exists_cons in Hex as [Hhd|Htl]; [|by right].
           left. rewrite Hhd. by destruct known.
Qed.

Lemma step_position_due k event s :
  k ∉ subscribed s →
  (k ∈ subscribed (dispatch event s).1.2
   ↔ is_position_event k event = true ∧ is_Some (contracts s !! k))
  ∧ (is_Some (contracts (dispatch event s).1.2 !! k)
     ↔ is_Some (contracts s !! k) ∨ is_contract_event k event = true).
Proof.
  intros Hout.
  destruct (dispatch_subscription event s) as [_ Hev].
  destruct event as [tick|contract|position| |log|data];
    cbn [is_position_event is_contract_event].
  - destruct Hev as (-> & -> & _).
    split; [split; [done | by intros [? _]] | split; [tauto | by intros [?|?]]].
  - destruct Hev as (_ & -> & -> & _). split; [split; [done | by intros [? _]]|].
    rewrite lookup_insert_is_Some, bool_decide_eq_true.
    destruct (decide (contract_vt_symbol contract = k)); tauto.
  - destruct Hev as (_ & -> & -> & _). split; [|split; [tauto | by intros [?|?]]].
    rewrite bool_decide_eq_true.
    destruct (decide (position_vt_symbol position ∈ subscribed s)) as [Hin|Hnotin].
    + split; [done|]. intros [<- _]. done.
    + destruct (contracts s !! position_vt_symbol position) as [c|] eqn:Hc.
      * rewrite elem_of_union, elem_of_singleton. split.
        -- intros [->|?]; [|done]. split; [done|]. by rewrite Hc.
        -- intros [<- _]. by left.
      * split; [done|]. intros [<- Hsome]. rewrite Hc in Hsome. by destruct Hsome.
  - destruct Hev as (-> & -> & _).
    split; [split; [done | by intros [? _]] | split; [tauto | by intros [?|?]]].
  - destruct Hev as (-> & -> & _).
    split; [split; [done | by intros [? _]] | split; [tauto | by intros [?|?]]].
  - destruct Hev as (-> & -> & _).
    split; [split; [done | by intros [? _]] | split; [tauto | by intros [?|?]]].
Qed.

Lemma run_position_due k events s :
  k ∉ subscribed s →
  k ∈ subscribed (run_events s events).2
  ↔ position_subscribe_due k (bool_decide (is_Some (contracts s !! k)))
      (step_event <$> (run_events s events).1) = true.
Proof.
  revert s. induction events as [|event rest IH]; intros s Hout; [done|].
  destruct (step_position_due k event s Hout) as [Hsub Hknown].
  rewrite run_events_cons.
  assert (is_position_event k event && bool_decide (is_Some (contracts s !! k)) = true
          ↔ k ∈ subscribed (dispatch event s).1.2) as Hnow.
  { rewrite Hsub, andb_true_iff, bool_decide_eq_true. done. }
  destruct ((dispatch event s).1.1) as [[]|e] eqn:Hr;
    cbn [fst snd fmap list_fmap step_event position_subscribe_due].
  - destruct (is_position_event k event && bool_decide (is_Some (contracts s !! k)))
      eqn:Hfire.
    + split; [done|]. intros _.
      destruct (position_subscribes_run k rest (dispatch event s).1.2) as [Hmono _].
      apply Hmono. by apply Hnow.
    + assert (k ∉ subscribed (dispatch event s).1.2) as Hout1.
      { intros Hin. apply Hnow in Hin. done. }
      rewrite (IH _ Hout1).
      replace (bool_decide (is_Some (contracts (dispatch event s).1.2 !! k)))
        with (bool_decide (is_Some (contracts s !! k)) || is_contract_event k event);
        [done|].
      apply eq_true_iff_eq. rewrite orb_true_iff, !bool_decide_eq_true. by rewrite Hknown.
  - rewrite <- Hnow.
    by destruct (is_position_event k event && bool_decide (is_Some (contracts s !! k))).
Qed.

(** Without tick events every event is handled. *)
Lemma run_without_ticks events s :
  Forall (fun event => ∀ tick, event ≠ EVENT_TICK tick) events →
  step_event <$> (run_events s events).1 = events.
Proof.
  revert s. induction events as [|event rest IH]; intros s Hall; [done|].
  apply Forall_cons in Hall as [Hev Hrest].
  rewrite run_events_cons.
  destruct ((dispatch event s).1.1) as [[]|e] eqn:Hr.
  - cbn [fst fmap list_fmap step_event]. f_equal. by apply IH.
  - apply dispatch_raises in Hr as (tick & -> & _). by destruct (Hev tick).
Qed.

(** C1 (amended): for every run from the start and every instrument [k]:
    the contract handler subscribes once for each contract event of [k] when
    [k] is in the trading set, and never otherwise; the position handler
    subscribes for [k] exactly once if some position event of [k] was
    handled after a contract event of [k], and not at all otherwise; it has
    done so exactly when [k] is in the subscription record at the end, in
    which case the contract of [k] is stored.  A sequence without tick
    events is handled to its end. *)
Theorem subscribe_counts vt_symbols events k :
  contract_subscribes k (run_events (init vt_symbols) events).1
  = (if decide (k ∈ vt_symbols)
     then contract_events k (run_events (init vt_symbols) events).1 else 0%nat)
  ∧ (position_subscribes k (run_events (init vt_symbols) events).1 ≤ 1)%nat
  ∧ (position_subscribes k (run_events (init vt_symbols) events).1 = 1%nat
     ↔ k ∈ subscribed (run_events (init vt_symbols) events).2)
  ∧ (k ∈ subscribed (run_events (init vt_symbols) events).2 →
     is_Some (contracts (run_events (init vt_symbols) events).2 !! k))
  ∧ (position_subscribes k (run_events (init vt_symbols) events).1 = 1%nat
     ↔ position_after_contract k
         (step_event <$> (run_events (init vt_symbols) events).1))
  ∧ position_subscribes k (run_events (init vt_symbols) events).1
    = (if position_subscribe_due k false
            (step_event <$> (run_events (init vt_symbols) events).1)
       then 1%nat else 0%nat)
  ∧ (Forall (fun event => ∀ tick, event ≠ EVENT_TICK tick) events →
     step_event <$> (run_events (init vt_symbols) events).1 = events).
Proof.
  assert (k ∉ subscribed (init vt_symbols)) as Hout by (cbn; apply not_elem_of_empty).
  pose proof (run_position_due k events (init vt_symbols) Hout) as Hdue.
  rewrite bool_decide_eq_false_2 in Hdue
    by (cbn; rewrite lookup_empty; by intros [? ?]).
  destruct (position_subscribes_run k events (init vt_symbols)) as [_ Hcount].
  rewrite decide_False in Hcount by done.
  split; [|split; [|split; [|split; [|split; [|split]]]]].
  - rewrite contract_subscribes_run. cbn [init trading_symbols].
    destruct (decide (k ∈ vt_symbols)) as [Hin|Hnotin].
    + rewrite decide_True; [done | by apply elem_of_list_to_set].
    + rewrite decide_False; [done | by rewrite elem_of_list_to_set].
  - rewrite Hcount. case_decide; lia.
  - rewrite Hcount. case_decide; split; (done || lia).
  - apply run_events_invariant, init_invariant.
  - rewrite Hcount.
    unfold position_after_contract.
    assert (position_subscribe_due k false
              (step_event <$> (run_events (init vt_symbols) events).1) = true
            ↔ ∃ pre position post,
                step_event <$> (run_events (init vt_symbols) events).1
                = pre ++ EVENT_POSITION position :: post
                ∧ position_vt_symbol position = k
                ∧ Exists (fun event => is_contract_event k event = true) pre) as Hiff.
    { rewrite position_subscribe_due_iff. split.
      - intros (pre & position & post & ? & ? & [?|?]); [done|].
        by exists pre, position, post.
      - intros (pre & position & post & ? & ? & ?).
        exists pre, position, post. split; [done|]. split; [done | by right]. }
    rewrite <- Hiff, <- Hdue. case_decide; split; (done || lia).
  - rewrite Hcount.
    destruct (position_subscribe_due k false _) eqn:Hfire.
    + rewrite decide_True; [done | by apply Hdue].
    + rewrite decide_False; [done|]. intros Hin. apply Hdue in Hin. congruence.
  - apply run_without_ticks.
Qed.

(** ** Between the contract and the next position of an instrument *)

(** While no position event of [k] is handled, [k] stays outside the
    subscription record, the position path makes no subscribe for it, and
    its stored contract is the one stored at the start or a contract
    delivered since. *)
Lemma run_without_position k events s contract :
  k ∉ subscribed s →
  contracts s !! k = Some contract →
  Forall (fun event => is_position_event k event = false) events →
  (k ∉ subscribed (run_events s events).2)
  ∧ position_subscribes k (run_events s events).1 = 0%nat
  ∧ ∃ contract',
      contracts (run_events s events).2 !! k = Some contract'
      ∧ (contract' = contract ∨ EVENT_CONTRACT contract' ∈ events)
      ∧ (Forall (fun event => is_contract_event k event = false) events →
         contract' = contract).
Proof.
  revert s contract. induction events as [|event rest IH]; intros s contract Hout Hc Hall.
  - repeat split; [done|]. exists contract. split; [done|]. split; [by left | done].
  - apply Forall_cons in Hall as [Hnotpos Hrest].
    destruct (step_position_due k event s Hout) as [Hsub _].
    assert (k ∉ subscribed (dispatch event s).1.2) as Hout1.
    { intros Hin. apply Hsub in Hin as [Hpos _]. congruence. }
    assert (∃ c1, contracts (dispatch event s).1.2 !! k = Some c1
                  ∧ (c1 = contract ∨ event = EVENT_CONTRACT c1)
                  ∧ (is_contract_event k event = false → c1 = contract)) as (c1 & Hc1 & Hor & Hsame).
    { destruct (dispatch_subscription event s) as [_ Hev].
      destruct event as [tick|c|position| |log|data]; cbn [is_contract_event].
      - destruct Hev as (-> & _). exists contract. split; [done|]. split; [by left | done].
      - destruct Hev as (_ & -> & _).
        destruct (decide (contract_vt_symbol c = k)) as [<-|Hne].
        + exists c. rewrite lookup_insert_eq. split; [done|]. split; [by right|].
          by rewrite bool_decide_eq_true_2.
        + exists contract. rewrite lookup_insert_ne by done.
          split; [done|]. split; [by left | done].
      - destruct Hev as (_ & -> & _). exists contract. split; [done|]. split; [by left | done].
      - destruct Hev as (-> & _). exists contract. split; [done|]. split; [by left | done].
      - destruct Hev as (-> & _). exists contract. split; [done|]. split; [by left | done].
      - destruct Hev as (-> & _). exists contract. split; [done|]. split; [by left | done]. }
    rewrite run_events_cons. unfold position_subscribes, is_position_step in *.
    destruct ((dispatch event s).1.1) as [[]|e] eqn:Hr;
      cbn [fst snd count_subscribes step_event step_effects]; rewrite Hnotpos.
    + destruct (IH _ c1 Hout1 Hc1 Hrest) as (Hout' & Hzero & c' & Hc' & Hor' & Hsame').
      split; [done|]. split; [done|]. exists c'. split; [done|]. split.
      * destruct Hor' as [->|Hin]; [|right; by apply list_elem_of_further].
        destruct Hor as [-> | ->]; [by left | right; apply list_elem_of_here].
      * intros [Hev Hrest']%Forall_cons. rewrite (Hsame' Hrest'). by apply Hsame.
    + split; [done|]. split; [done|]. exists c1. split; [done|]. split.
      * destruct Hor as [-> | ->]; [by left | right; apply list_elem_of_here].
      * intros [Hev _]%Forall_cons. by apply Hsame.
Qed.

(** C6 (amended): when a position event of an instrument is delivered in a
    run with no contract event of that instrument, no subscribe has been
    made for the instrument by the end of that run; the contract event that
    then arrives subscribes once if the instrument is in the trading set and
    not at all otherwise; whatever events follow, as long as none is a
    position event of the instrument, the position path makes no subscribe
    for it, and the next position event of the instrument subscribes once,
    with the request of the contract then stored for the instrument (the
    contract that arrived, unless a later contract event replaced it);
    after that the position path never subscribes for the instrument
    again. *)
Theorem position_before_contract vt_symbols pre position rest contract :
  contract_vt_symbol contract = position_vt_symbol position →
  Forall (fun event => is_contract_event (position_vt_symbol position) event = false)
    (pre ++ rest) →
  subscribes_for (position_vt_symbol position)
    (run_events (init vt_symbols) (pre ++ EVENT_POSITION position :: rest)).1 = 0%nat
  ∧ ∃ s2,
      dispatch (EVENT_CONTRACT contract)
        (run_events (init vt_symbols) (pre ++ EVENT_POSITION position :: rest)).2
      = (Return tt, s2,
         if decide (position_vt_symbol position ∈ vt_symbols)
         then [gateway_subscribe (subscribe_request contract)] else [])
      ∧ ∀ between,
          Forall (fun event =>
                    is_position_event (position_vt_symbol position) event = false)
            between →
          position_subscribes (position_vt_symbol position)
            (run_events s2 between).1 = 0%nat
          ∧ ∃ contract',
              contracts (run_events s2 between).2 !! position_vt_symbol position
              = Some contract'
              ∧ (contract' = contract ∨ EVENT_CONTRACT contract' ∈ between)
              ∧ (Forall (fun event =>
                           is_contract_event (position_vt_symbol position) event
                           = false) between →
                 contract' = contract)
              ∧ ∀ position',
                  position_vt_symbol position' = position_vt_symbol position →
                  ∃ s3,
                    dispatch (EVENT_POSITION position') (run_events s2 between).2
                    = (Return tt, s3,
                       [gateway_subscribe (subscribe_request contract')])
                    ∧ (∀ position'',
                         position_vt_symbol position''
                         = position_vt_symbol position →
                         (dispatch (EVENT_POSITION position'') s3).2 = [])
                    ∧ ∀ later,
                        position_subscribes (position_vt_symbol position)
                          (run_events s3 later).1 = 0%nat.
Proof.
  intros Hsame Hall.
  set (k := position_vt_symbol position) in *.
  set (events := pre ++ EVENT_POSITION position :: rest).
  assert (Forall (fun event => is_contract_event k event = false) events) as Hall'.
  { apply Forall_app in Hall as [Hpre Hrest].
    apply Forall_app. split; [done|]. by apply Forall_cons. }
  destruct (no_contract_no_subscribe k events (init vt_symbols)) as [Hzero Hnone];
    [done | done |].
  split; [done|].
  set (s1 := (run_events (init vt_symbols) events).2) in *.
  assert (k ∉ subscribed s1) as Hnotsub.
  { intros Hin.
    destruct (run_events_invariant events (init vt_symbols) (init_invariant _) k Hin)
      as [c Hc].
    fold s1 in Hc. congruence. }
  assert (trading_symbols s1 = list_to_set vt_symbols) as Htrading
    by apply run_events_trading_symbols.
  cbn [dispatch]. rewrite process_contract_event_eq. rewrite Hsame. fold k.
  eexists. split.
  { f_equal. rewrite Htrading.
    destruct (decide (k ∈ vt_symbols)) as [Hin|Hnotin].
    - rewrite decide_True; [done | by apply elem_of_list_to_set].
    - rewrite decide_False; [done | by rewrite elem_of_list_to_set]. }
  intros between Hbetween.
  set (s2 := with_contracts s1 (<[k:=contract]> (contracts s1))).
  destruct (run_without_position k between s2 contract)
    as (Hout2 & Hzero2 & c' & Hc' & Hor & Hsame'); [done | apply lookup_insert_eq | done |].
  split; [done|]. exists c'. split; [done|]. split; [done|]. split; [done|].
  intros position' Hk'. rewrite process_position_event_eq. rewrite Hk'. fold k.
  rewrite Hc'. rewrite !decide_False by done.
  eexists. split; [reflexivity|].
  set (s3 := with_subscribed _ _).
  assert (k ∈ subscribed s3) as Hin3.
  { subst s3. cbn. apply elem_of_union_l, elem_of_singleton. reflexivity. }
  split.
  - intros position'' Hk''. rewrite process_position_event_eq. rewrite Hk''. fold k.
    cbn [snd]. by rewrite decide_True.
  - intros later. destruct (position_subscribes_run k later s3) as [_ ->].
    by rewrite decide_True.
Qed.

(** ** Valuation after a tick *)

(** X12: the valuation prints the latest tick.  When a position on an
    instrument is stored and the contract of the instrument is stored, a
    tick event of that instrument returns, and the valuation pass run next
    prints the line of that position with the volume of the position times
    the price of this tick times the contract size. *)
Theorem valuation_after_tick s tick id position contract :
  (id, position) ∈ positions s →
  position_vt_symbol position = tick_vt_symbol tick →
  contracts s !! tick_vt_symbol tick = Some contract →
  (process_tick_event tick s).1.1 = Return tt
  ∧ print (position_vt_symbol position +:+ " "%string
           +:+ str_Direction (position_direction position)
           +:+ "当前持仓市值"%string
           +:+ str_number (market_value position tick contract))
    ∈ (calculate_value (process_tick_event tick s).1.2).2.
Proof.
  intros Hin Hsame Hc. split.
  - destruct ((process_tick_event tick s).1.1) as [[]|e] eqn:Hr; [done|].
    apply (dispatch_raises (EVENT_TICK tick) s e) in Hr
      as (tick' & [= <-] & _ & _ & _ & Hnone). congruence.
  - destruct (dispatch_history (EVENT_TICK tick) s) as [Hticks _].
    destruct (process_tick_event_frame tick s) as (Hcontracts & _).
    pose proof (dispatch_positions (EVENT_TICK tick) s) as Hpositions.
    cbn [dispatch] in Hticks, Hpositions.
    rewrite calculate_value_eq. cbn [snd]. unfold valuation_report.
    apply list_elem_of_fmap. eexists. split; [reflexivity|].
    apply list_elem_of_omap. exists position. split.
    + rewrite Hpositions. apply list_elem_of_fmap. by exists (id, position).
    + unfold value_line.
      rewrite Hticks, Hcontracts, Hsame, lookup_insert_eq, Hc. reflexivity.
Qed.

End Properties.

(** * Concrete runs

    The theorems above applied to runs over integer prices, and the inputs
    at which the statements of the specification fail as worded. *)

(** C2: the third tick of a trading-set instrument whose contract has not
    been received does not skip the evaluation: [self.contracts[vt_symbol]]
    raises [KeyError], after the tick was stored and appended to the
    history, and nothing is sent. *)
Theorem tick_before_contract_raises :
  (run_events (init [rb])
     [EVENT_TICK (rb_tick 10 1); EVENT_TICK (rb_tick 11 2);
      EVENT_TICK (rb_tick 12 3)]).1
  = [ {| step_event := EVENT_TICK (rb_tick 10 1); step_effects := [];
         step_result := Return tt |};
      {| step_event := EVENT_TICK (rb_tick 11 2); step_effects := [];
         step_result := Return tt |};
      {| step_event := EVENT_TICK (rb_tick 12 3); step_effects := [];
         step_result := Raise (KeyError rb) |} ]
  ∧ (process_tick_event (rb_tick 12 3) two_ticks_no_contract).1.1
    = Raise (KeyError rb)
  ∧ history (process_tick_event (rb_tick 12 3) two_ticks_no_contract).1.2 rb
    = [rb_tick 10 1; rb_tick 11 2; rb_tick 12 3].
Proof. repeat split; vm_compute; reflexivity. Qed.

(** C3 at the prices 10, 11, 12 in arrival order with the contract stored:
    the third tick buys at 22. *)
Lemma long_entry_witness :
  ∃ s',
    process_tick_event (rb_tick 12 3) two_ticks_with_contract
    = (Return tt, s',
       [gateway_send_order (buy_order rb_contract (rb_tick 12 3));
        event_engine_put (EVENT_LOG (buy_log rb (rb_tick 12 3)));
        event_engine_put (EVENT_STRATEGY (status_data rb (rb_tick 12 3) 1))])
    ∧ target s' rb = 1.
Proof.
  apply (long_entry two_ticks_with_contract (rb_tick 12 3) []
           (rb_tick 10 1) (rb_tick 11 2) rb_contract);
    vm_compute; reflexivity.
Defined.

(** C3 as worded fails: the same three ticks without the contract meet
    every condition it names, and no order is sent (the handler raises). *)
Lemma long_entry_needs_contract :
  ¬ long_entry_as_stated two_ticks_no_contract (rb_tick 12 3).
Proof.
  intros Hclaim.
  destruct (Hclaim [] (rb_tick 10 1) (rb_tick 11 2)) as (order & Horders & _);
    try (vm_compute; reflexivity).
  vm_compute in Horders. discriminate Horders.
Qed.

(** C4 after the ticks 10, 11, 12, 11: the tick 10 sells at 0. *)
Lemma long_exit_run_witness :
  ∃ contract s',
    contracts (run_events (init [rb]) long_events).2 !! rb = Some contract
    ∧ process_tick_event (rb_tick 10 5) (run_events (init [rb]) long_events).2
      = (Return tt, s',
         [gateway_send_order (sell_order contract (rb_tick 10 5));
          event_engine_put (EVENT_LOG (sell_log rb (rb_tick 10 5)));
          event_engine_put (EVENT_STRATEGY (status_data rb (rb_tick 10 5) 0))])
    ∧ target s' rb = 0.
Proof.
  apply (long_exit_run [rb] long_events (rb_tick 10 5)
           [rb_tick 10 1; rb_tick 11 2] (rb_tick 12 3) (rb_tick 11 4)).
  - apply list_elem_of_here.
  - vm_compute; reflexivity.
  - vm_compute; reflexivity.
  - vm_compute; reflexivity.
Defined.

(** C5 at a rising triple delivered while already Long: nothing is sent. *)
Lemma no_transition_witness :
  orders_of (process_tick_event (rb_tick 14 5) long_and_rising).2 = []
  ∧ target (process_tick_event (rb_tick 14 5) long_and_rising).1.2 rb
    = target long_and_rising rb.
Proof.
  apply (no_transition long_and_rising (rb_tick 14 5)).
  - vm_compute; reflexivity.
  - right. vm_compute; reflexivity.
  - right. exists [rb_tick 10 1; rb_tick 11 2], (rb_tick 12 3), (rb_tick 13 4).
    split; [vm_compute; reflexivity|].
    split; intros [Hprices Htarget]; vm_compute in Hprices, Htarget; discriminate.
Defined.

(** C8 as worded fails: the first tick of an instrument puts no status
    event on the bus ([run_trading] returns at the history check). *)
Lemma status_needs_three_ticks :
  ¬ status_always_as_stated (init [rb]) (rb_tick 10 1).
Proof.
  intros Hclaim.
  assert (rb ∈ trading_symbols (init [rb])) as Hin by (vm_compute; reflexivity).
  specialize (Hclaim Hin). vm_compute in Hclaim. discriminate Hclaim.
Qed.

(** C8 at the third tick of an instrument whose contract is stored. *)
Lemma status_event_witness :
  ∃ s' calls,
    process_tick_event (rb_tick 12 3) two_ticks_with_contract
    = (Return tt, s',
       calls ++ [event_engine_put
                   (EVENT_STRATEGY (status_data rb (rb_tick 12 3) (target s' rb)))])
    ∧ status_of calls = []
    ∧ status_of (process_tick_event (rb_tick 12 3) two_ticks_with_contract).2
      = [status_data rb (rb_tick 12 3) (target s' rb)].
Proof.
  apply (status_event two_ticks_with_contract (rb_tick 12 3) []
           (rb_tick 10 1) (rb_tick 11 2) rb_contract);
    vm_compute; reflexivity.
Defined.

(** C1 as worded fails: after a contract event and a position event of a
    trading-set instrument both handlers have subscribed. *)
Lemma subscribed_twice :
  ¬ subscribed_once_as_stated [rb]
      [EVENT_CONTRACT rb_contract; EVENT_POSITION rb_position].
Proof.
  intros Hclaim. specialize (Hclaim rb). vm_compute in Hclaim. lia.
Qed.

(** C6 as worded fails: after a position, then the contract, of an
    instrument outside the trading set no subscribe has been made. *)
Lemma position_first_not_subscribed :
  ¬ position_first_as_stated [] rb_position rb_contract.
Proof.
  intros Hclaim. destruct Hclaim as [_ Hone]; [reflexivity|].
  vm_compute in Hone. discriminate Hone.
Qed.

(** C6 for a trading-set instrument: position, then contract. *)
Lemma position_before_contract_witness :
  subscribes_for (position_vt_symbol rb_position)
    (run_events (init [rb]) ([] ++ EVENT_POSITION rb_position :: [])).1 = 0%nat
  ∧ ∃ s2,
      dispatch (EVENT_CONTRACT rb_contract)
        (run_events (init [rb]) ([] ++ EVENT_POSITION rb_position :: [])).2
      = (Return tt, s2,
         if decide (position_vt_symbol rb_position ∈ [rb])
         then [gateway_subscribe (subscribe_request rb_contract)] else [])
      ∧ ∀ between,
          Forall (fun event =>
                    is_position_event (position_vt_symbol rb_position) event = false)
            between →
          position_subscribes (position_vt_symbol rb_position)
            (run_events s2 between).1 = 0%nat
          ∧ ∃ contract',
              contracts (run_events s2 between).2 !! position_vt_symbol rb_position
              = Some contract'
              ∧ (contract' = rb_contract ∨ EVENT_CONTRACT contract' ∈ between)
              ∧ (Forall (fun event =>
                           is_contract_event (position_vt_symbol rb_position) event
                           = false) between →
                 contract' = rb_contract)
              ∧ ∀ position',
                  position_vt_symbol position' = position_vt_symbol rb_position →
                  ∃ s3,
                    dispatch (EVENT_POSITION position') (run_events s2 between).2
                    = (Return tt, s3,
                       [gateway_subscribe (subscribe_request contract')])
                    ∧ (∀ position'',
                         position_vt_symbol position''
                         = position_vt_symbol rb_position →
                         (dispatch (EVENT_POSITION position'') s3).2 = [])
                    ∧ ∀ later,
                        position_subscribes (position_vt_symbol rb_position)
                          (run_events s3 later).1 = 0%nat.
Proof.
  apply (position_before_contract [rb] [] rb_position [] rb_contract).
  - reflexivity.
  - apply Forall_nil_2.
Defined.

(** C10 where the record already holds [rb] and the position event of [hc],
    whose contract is stored, adds [hc] to it. *)
Lemma subscribed_have_contract_witness :
  subscribed_have_contract
    (dispatch (EVENT_POSITION hc_position) rb_subscribed_hc_known).1.2
  ∧ subscribed rb_subscribed_hc_known
    ⊆ subscribed (dispatch (EVENT_POSITION hc_position) rb_subscribed_hc_known).1.2
  ∧ dom (contracts rb_subscribed_hc_known)
    ⊆ dom (contracts
             (dispatch (EVENT_POSITION hc_position) rb_subscribed_hc_known).1.2)
  ∧ (∀ k, k ∈ subscribed
              (dispatch (EVENT_POSITION hc_position) rb_subscribed_hc_known).1.2 →
          k ∈ subscribed rb_subscribed_hc_known
          ∨ is_Some (contracts rb_subscribed_hc_known !! k))
  ∧ (process_timer_event rb_subscribed_hc_known).1.2 = rb_subscribed_hc_known.
Proof.
  apply (subscribed_have_contract_preserved rb_subscribed_hc_known
           (EVENT_POSITION hc_position)).
  assert (subscribed rb_subscribed_hc_known = {[rb]}) as Hrecord
    by (vm_compute; reflexivity).
  intros k Hk. rewrite Hrecord in Hk. apply elem_of_singleton in Hk. subst k.
  vm_compute. eexists. reflexivity.
Defined.

(** The record of that state and what the position event of [hc] does to
    it. *)
Lemma subscribed_have_contract_witness_state :
  subscribed rb_subscribed_hc_known = {[rb]}
  ∧ subscribed (dispatch (EVENT_POSITION hc_position) rb_subscribed_hc_known).1.2
    = {[hc; rb]}
  ∧ (dispatch (EVENT_POSITION hc_position) rb_subscribed_hc_known).2
    = [gateway_subscribe (subscribe_request hc_contract)].
Proof. repeat split; vm_compute; reflexivity. Qed.

(** X6 for the engine trading [rb] once its contract has arrived. *)
Lemma run_completes_witness :
  step_event <$> (run_events two_ticks_with_contract long_events).1 = long_events
  ∧ Forall (fun st => step_result st = Return tt)
      (run_events two_ticks_with_contract long_events).1
  ∧ trading_have_contract (run_events two_ticks_with_contract long_events).2.
Proof.
  apply (run_completes two_ticks_with_contract long_events).
  intros k Hk. unfold two_ticks_with_contract in *.
  rewrite run_events_trading_symbols in Hk. cbn in Hk.
  apply elem_of_union in Hk as [Hk%elem_of_singleton | Hk%elem_of_empty]; [|done].
  subst k. vm_compute. eexists. reflexivity.
Defined.

(** X12 for the stored position on [rb] and the tick at price 12: the pass
    prints 2 * 12 * 10. *)
Lemma valuation_after_tick_witness :
  (process_tick_event (rb_tick 12 3) position_and_two_ticks).1.1 = Return tt
  ∧ print (position_vt_symbol rb_position +:+ " "%string
           +:+ str_Direction (position_direction rb_position)
           +:+ "当前持仓市值"%string
           +:+ str_number (market_value rb_position (rb_tick 12 3) rb_contract))
    ∈ (calculate_value
         (process_tick_event (rb_tick 12 3) position_and_two_ticks).1.2).2.
Proof.
  apply (valuation_after_tick position_and_two_ticks (rb_tick 12 3)
           (position_vt_positionid rb_position) rb_position rb_contract).
  - vm_compute. apply list_elem_of_here.
  - reflexivity.
  - vm_compute. reflexivity.
Defined.

(** What the pass prints in that state. *)
Lemma valuation_after_tick_printed :
  (calculate_value (process_tick_event (rb_tick 12 3) position_and_two_ticks).1.2).2
  = [print "rb2405.SHFE Direction.LONG当前持仓市值240"%string].
Proof. vm_compute. reflexivity. Qed.
